(** * Kafka fetch request: operation context and partition iterator

    A shallow embedding of [src/v/kafka/requests/fetch_request.h]:
    the request and response data model, the budget and stop logic of
    [op_context], and the flattening [fetch_request::const_iterator].

    Machine integers are [Z] with their wrap-around written out:
    [size_t] is taken modulo [2^64], [int32_t] is two's complement on
    32 bits.  Iterators are positions: a topic iterator is an index into
    the request's topic vector, a partition iterator names the topic whose
    partition vector it points into together with an offset. *)

From Stdlib Require Import String ZArith List Bool Arith Lia.
From Equations Require Import Equations.
From Equations.Prop Require Import Logic.
Import ListNotations.

Local Open Scope Z_scope.

(** ** Machine integers *)

Module machine.

Definition is_size_t (z : Z) : Prop := 0 <= z < 2 ^ 64.
Definition is_int32 (z : Z) : Prop := - 2 ^ 31 <= z < 2 ^ 31.

(** [size_t(x)]: conversion to the unsigned 64-bit type. *)
Definition to_size_t (z : Z) : Z := z mod 2 ^ 64.

(** [static_cast<int32_t>(x)]: keep the low 32 bits, read as signed. *)
Definition to_int32 (z : Z) : Z := (z + 2 ^ 31) mod 2 ^ 32 - 2 ^ 31.

End machine.

(** ** Types the header takes from elsewhere *)

(** Modelled from the spec: [kafka::error_code] is declared in a header that
    is not part of the sources.  It is the protocol's 16-bit error number;
    the only distinction used here is success (zero) against everything
    else. *)
Definition error_code : Type := Z.
Definition error_code_none : error_code := 0.

(** [iobuf] is opaque to this header, which only asks for [size_bytes()]. *)
Record iobuf : Type := { size_bytes : Z }.

(** [api_version] and [api_key] are 16-bit integer wrappers. *)
Definition api_version : Type := Z.
Definition api_key : Type := Z.

(** ** [fetch_api] *)

Module fetch_api.

Definition name : string := "fetch".
Definition key : api_key := 1.
Definition min_supported : api_version := 4.
Definition max_supported : api_version := 10.

End fetch_api.

(** ** [fetch_request] *)

Module fetch_request.

Record partition : Type := {
  id : Z;
  current_leader_epoch : Z;
  fetch_offset : Z;
  log_start_offset : Z;
  partition_max_bytes : Z
}.

Record topic : Type := {
  name : string;
  partitions : list partition
}.

Record forgotten_topic : Type := {
  forgotten_name : string;
  forgotten_partitions : list Z
}.

Record t : Type := {
  replica_id : Z;
  max_wait_time : Z;          (* milliseconds *)
  min_bytes : Z;              (* int32_t *)
  max_bytes : Z;              (* int32_t *)
  isolation_level : Z;
  session_id : Z;
  session_epoch : Z;
  topics : list topic;
  forgotten_topics : list forgotten_topic
}.

Definition debounce_delay (r : t) : option Z :=
  if max_wait_time r <=? 0 then None else Some (max_wait_time r).

(** *** [const_iterator]

    The adapter walks the nested vectors.  A topic iterator is an index
    into [topics] (index [length topics] is [topics.cend()]).  A partition
    iterator records which topic's vector it points into and the offset
    there; [None] is the value-initialised iterator the constructor leaves
    when the request has no topic. *)
Module const_iterator.

Definition const_topic_iterator : Type := nat.

Record partition_position : Type := { vec : nat; off : nat }.

Definition const_partition_iterator : Type := option partition_position.

Record value_type : Type := {
  new_topic : bool;
  topic : const_topic_iterator;
  partition : const_partition_iterator
}.

Record t : Type := {
  state_ : value_type;
  t_end_ : const_topic_iterator
}.

Definition partition_iterator_eqb (a b : const_partition_iterator) : bool :=
  match a, b with
  | Some x, Some y => Nat.eqb (vec x) (vec y) && Nat.eqb (off x) (off y)
  | None, None => true
  | _, _ => false
  end.

(** [operator==]. *)
Definition op_eq (a o : t) : bool :=
  if Nat.eqb (topic (state_ a)) (topic (state_ o)) then
    if Nat.eqb (topic (state_ a)) (t_end_ a) then true
    else partition_iterator_eqb (partition (state_ a)) (partition (state_ o))
  else false.

(** [operator!=]. *)
Definition op_neq (a o : t) : bool := negb (op_eq a o).

Section over_topics.

(** The vector the iterators point into. *)
Variable topics : list fetch_request.topic.

Definition partitions_cbegin (ti : nat) : const_partition_iterator :=
  Some {| vec := ti; off := 0 |}.

Definition partitions_cend (ti : nat) (tp : fetch_request.topic)
  : const_partition_iterator :=
  Some {| vec := ti; off := length (partitions tp) |}.

(** One evaluation of the loop condition of [normalize] followed, when
    it holds, by one run of the loop body. *)
Inductive loop_step : Type :=
| loop_exit (it : t)        (* condition false, or [break] *)
| loop_again (it : t)       (* back to the condition *)
| loop_undefined.           (* [state_.topic] is [topics.cend()] *)

Definition normalize_step (it : t) : loop_step :=
  match nth_error topics (topic (state_ it)) with
  | None => loop_undefined
  | Some tp =>
      if partition_iterator_eqb (partition (state_ it))
           (partitions_cend (topic (state_ it)) tp)
      then
        let ti := S (topic (state_ it)) in
        if negb (Nat.eqb ti (t_end_ it)) then
          loop_again
            {| state_ := {| new_topic := true; topic := ti;
                            partition := partitions_cbegin ti |};
               t_end_ := t_end_ it |}
        else
          loop_exit
            {| state_ := {| new_topic := true; topic := ti;
                            partition := partition (state_ it) |};
               t_end_ := t_end_ it |}
      else loop_exit it
  end.

(** The loop: each further round looks at a later topic, and a round is
    only entered while [state_.topic] is inside [topics]. *)
Equations normalize (it : t) : option t
  by wf (length topics - topic (state_ it))%nat lt :=
  normalize it with inspect (normalize_step it) => {
    | exist _ (loop_exit it') _ => Some it';
    | exist _ (loop_again it') Hstep => normalize it';
    | exist _ loop_undefined _ => None }.
Next Obligation.
  revert Hstep. unfold normalize_step.
  destruct (nth_error topics (topic (state_ it))) as [tp|] eqn:Hnth;
    [|discriminate].
  assert (topic (state_ it) < length topics)%nat
    by (apply nth_error_Some; congruence).
  destruct (partition_iterator_eqb _ _); [|discriminate].
  destruct (negb _); [|discriminate].
  intros [= <-]. simpl. lia.
Qed.

(** The constructor [const_iterator(begin, end)]. *)
Definition construct (first last : const_topic_iterator) : option t :=
  let it := {| state_ := {| new_topic := true; topic := first;
                            partition := None |};
               t_end_ := last |} in
  if negb (Nat.eqb first last) then
    normalize
      {| state_ := {| new_topic := true; topic := first;
                      partition := partitions_cbegin first |};
         t_end_ := last |}
  else Some it.

(** [state_.partition++]; undefined on a singular iterator and on one
    that is not before the end of its vector. *)
Definition partition_incr (p : const_partition_iterator)
  : option const_partition_iterator :=
  match p with
  | None => None
  | Some x =>
      match nth_error topics (vec x) with
      | None => None
      | Some tp =>
          if Nat.ltb (off x) (length (partitions tp))
          then Some (Some {| vec := vec x; off := S (off x) |})
          else None
      end
  end.

(** [operator++()]. *)
Definition op_incr (it : t) : option t :=
  match partition_incr (partition (state_ it)) with
  | None => None
  | Some p =>
      normalize
        {| state_ := {| new_topic := false; topic := topic (state_ it);
                        partition := p |};
           t_end_ := t_end_ it |}
  end.

(** [operator++(int)]: the copy taken before advancing, paired with the
    advanced cursor. *)
Definition op_post_incr (it : t) : option (t * t) :=
  let tmp := it in
  match op_incr it with
  | Some it' => Some (tmp, it')
  | None => None
  end.

Definition cbegin : option t := construct 0%nat (length topics).
Definition cend : option t := construct (length topics) (length topics).

(** The value [cend()] returns: the constructor's first test fails and
    leaves the partition iterator as it was initialised. *)
Definition cend_cursor : t :=
  {| state_ := {| new_topic := true; topic := length topics;
                  partition := None |};
     t_end_ := length topics |}.

(** What a consumer reads through [operator*]: the flag, [*it->topic]
    and [*it->partition]. *)
Definition deref (v : value_type)
  : option (bool * fetch_request.topic * fetch_request.partition) :=
  match nth_error topics (topic v), partition v with
  | Some tp, Some x =>
      match nth_error topics (vec x) with
      | Some tq =>
          match nth_error (partitions tq) (off x) with
          | Some p => Some (new_topic v, tp, p)
          | None => None
          end
      | None => None
      end
  | _, _ => None
  end.

(** [for (; it != last; ++it) yield *it], cut off after [fuel]
    iterations. *)
Fixpoint traverse (fuel : nat) (it last : t)
  : option (list (bool * fetch_request.topic * fetch_request.partition)) :=
  if op_neq it last then
    match fuel with
    | O => None
    | S fuel' =>
        match deref (state_ it), op_incr it with
        | Some v, Some it' => option_map (cons v) (traverse fuel' it' last)
        | _, _ => None
        end
    end
  else Some [].

(** [for (auto it = cbegin(); it != cend(); ++it) yield *it]. *)
Definition traversal (fuel : nat)
  : option (list (bool * fetch_request.topic * fetch_request.partition)) :=
  match cbegin, cend with
  | Some first, Some last => traverse fuel first last
  | _, _ => None
  end.

End over_topics.

End const_iterator.

Definition cbegin (r : t) : option const_iterator.t :=
  const_iterator.cbegin (topics r).

Definition cend (r : t) : option const_iterator.t :=
  const_iterator.cend (topics r).

(** *** The traversal as the specification words it

    Topics in order, partitions of a topic in order, the flag on the first
    partition of a topic only, nothing for a topic without partitions. *)
Definition flagged_partitions (tp : topic) : list (bool * topic * partition) :=
  match partitions tp with
  | [] => []
  | p :: ps => (true, tp, p) :: map (fun q => (false, tp, q)) ps
  end.

Definition spec_traversal (ts : list topic) : list (bool * topic * partition) :=
  flat_map flagged_partitions ts.

Definition count_partitions (ts : list topic) : nat :=
  list_sum (map (fun tp => length (partitions tp)) ts).

(** *** Cursors reached by iterating

    What is still to be yielded from a cursor: the rest of the current
    topic, with the cursor's flag on its first element, then the topics after
    it. *)
Definition remaining_in_topic (flag : bool) (tp : topic) (offset : nat)
  : list (bool * topic * partition) :=
  match skipn offset (partitions tp) with
  | [] => []
  | p :: ps => (flag, tp, p) :: map (fun q => (false, tp, q)) ps
  end.

Definition remaining (ts : list topic) (it : const_iterator.t)
  : list (bool * topic * partition) :=
  match nth_error ts (const_iterator.topic (const_iterator.state_ it)),
        const_iterator.partition (const_iterator.state_ it) with
  | Some tp, Some x =>
      remaining_in_topic
        (const_iterator.new_topic (const_iterator.state_ it)) tp
        (const_iterator.off x)
      ++ spec_traversal
           (skipn (S (const_iterator.topic (const_iterator.state_ it))) ts)
  | _, _ => []
  end.

(** The cursor is inside topic [topic], its partition iterator points into
    that topic's vector, at most at its end. *)
Definition positioned (ts : list topic) (it : const_iterator.t) : Prop :=
  const_iterator.t_end_ it = length ts
  /\ exists tp x,
       nth_error ts (const_iterator.topic (const_iterator.state_ it)) = Some tp
       /\ const_iterator.partition (const_iterator.state_ it) = Some x
       /\ const_iterator.vec x
          = const_iterator.topic (const_iterator.state_ it)
       /\ (const_iterator.off x <= length (partitions tp))%nat.

(** The cursor is past the last topic, or at a partition of a topic. *)
Definition normalized (ts : list topic) (it : const_iterator.t) : Prop :=
  const_iterator.t_end_ it = length ts
  /\ (const_iterator.topic (const_iterator.state_ it) = length ts
      \/ exists tp x,
           nth_error ts (const_iterator.topic (const_iterator.state_ it))
             = Some tp
           /\ const_iterator.partition (const_iterator.state_ it) = Some x
           /\ const_iterator.vec x
              = const_iterator.topic (const_iterator.state_ it)
           /\ (const_iterator.off x < length (partitions tp))%nat).

(** The cursors a loop over the request can hold: [cbegin()], [cend()], and
    what [operator++] makes of them. *)
Inductive reachable (ts : list topic) : const_iterator.t -> Prop :=
| reachable_cbegin (it : const_iterator.t) :
    const_iterator.cbegin ts = Some it -> reachable ts it
| reachable_cend (it : const_iterator.t) :
    const_iterator.cend ts = Some it -> reachable ts it
| reachable_incr (it it' : const_iterator.t) :
    reachable ts it -> const_iterator.op_incr ts it = Some it' ->
    reachable ts it'.

(** [new_topic] against the position: set at the end of the topics, and
    inside a topic set exactly at its first partition. *)
Definition flag_consistent (ts : list topic) (it : const_iterator.t) : Prop :=
  const_iterator.t_end_ it = length ts
  /\ (const_iterator.topic (const_iterator.state_ it) = length ts ->
      const_iterator.new_topic (const_iterator.state_ it) = true)
  /\ (forall x,
        const_iterator.partition (const_iterator.state_ it) = Some x ->
        (const_iterator.topic (const_iterator.state_ it) < length ts)%nat ->
        (const_iterator.new_topic (const_iterator.state_ it) = true <->
         const_iterator.off x = 0%nat)).

Definition no_partitions (tp : topic) : Prop := partitions tp = [].

End fetch_request.

(** ** [fetch_response] *)

Module fetch_response.

Record aborted_transaction : Type := {
  producer_id : Z;
  first_offset : Z
}.

Record partition_response : Type := {
  id : Z;
  error : error_code;
  high_watermark : Z;
  last_stable_offset : Z;
  log_start_offset : Z;
  aborted_transactions : list aborted_transaction;
  record_set : option iobuf
}.

Record partition : Type := {
  name : string;
  responses : list partition_response
}.

Definition make_partition (n : string) : partition :=
  {| name := n; responses := [] |}.

Definition push_back (p : partition) (r : partition_response) : partition :=
  {| name := name p; responses := responses p ++ [r] |}.

Record t : Type := {
  throttle_time : Z;
  error_ : error_code;
  session_id : Z;
  partitions : list partition
}.

(** The constructor sets [throttle_time] only; [error] and [session_id]
    keep whatever indeterminate value they start with. *)
Definition make (error0 : error_code) (session_id0 : Z) : t :=
  {| throttle_time := 0; error_ := error0; session_id := session_id0;
     partitions := [] |}.

Definition set_partitions (r : t) (ps : list partition) : t :=
  {| throttle_time := throttle_time r; error_ := error_ r;
     session_id := session_id r; partitions := ps |}.

End fetch_response.

(** ** Vector helpers *)

(** [v.back() = f(v.back())]; undefined on an empty vector. *)
Fixpoint update_back {A : Type} (f : A -> A) (v : list A) : option (list A) :=
  match v with
  | [] => None
  | x :: rest =>
      match rest with
      | [] => Some [f x]
      | _ :: _ => option_map (cons x) (update_back f rest)
      end
  end.

(** ** [op_context] *)

Module op_context.

(** What the constructor reads from its surroundings: the clock, and the
    indeterminate initial values of the response fields it does not set. *)
Record env : Type := {
  now : Z;
  indeterminate_error : error_code;
  indeterminate_session_id : Z
}.

(** [rctx] and [ssg] are handles used only by [decode] and by the callers;
    they carry no state of the budget logic. *)
Record t : Type := {
  request : fetch_request.t;
  response : fetch_response.t;
  bytes_left : Z;               (* size_t *)
  deadline : option Z;
  response_size : Z;            (* size_t *)
  response_error : bool;
  initial_fetch : bool
}.

Definition MAX_SIZE : Z := Z.shiftl 128 20.

(** The constructor, after [request.decode(rctx)] has produced [req]. *)
Definition make (e : env) (req : fetch_request.t) : t :=
  {| request := req;
     response := fetch_response.make (indeterminate_error e)
                                     (indeterminate_session_id e);
     bytes_left := Z.min MAX_SIZE (machine.to_size_t (fetch_request.max_bytes req));
     deadline :=
       match fetch_request.debounce_delay req with
       | Some delay => Some (now e + delay)
       | None => None
       end;
     response_size := 0;
     response_error := false;
     initial_fetch := true |}.

Definition set_response (o : t) (r : fetch_response.t) : t :=
  {| request := request o; response := r; bytes_left := bytes_left o;
     deadline := deadline o; response_size := response_size o;
     response_error := response_error o; initial_fetch := initial_fetch o |}.

Definition set_budget (o : t) (size left : Z) : t :=
  {| request := request o; response := response o; bytes_left := left;
     deadline := deadline o; response_size := size;
     response_error := response_error o; initial_fetch := initial_fetch o |}.

Definition start_response_topic (o : t) (tp : fetch_request.topic) : t :=
  set_response o
    (fetch_response.set_partitions (response o)
       (fetch_response.partitions (response o)
          ++ [fetch_response.make_partition (fetch_request.name tp)])).

(** [None] is the undefined [back()] of an empty [response.partitions]. *)
Definition add_partition_response (o : t) (r : fetch_response.partition_response)
  : option t :=
  let o1 :=
    match fetch_response.record_set r with
    | Some buf =>
        set_budget o
          (machine.to_size_t (response_size o + size_bytes buf))
          (machine.to_size_t
             (bytes_left o - Z.min (bytes_left o) (size_bytes buf)))
    | None => o
    end in
  match update_back (fun p => fetch_response.push_back p r)
                    (fetch_response.partitions (response o1)) with
  | Some ps => Some (set_response o1 (fetch_response.set_partitions (response o1) ps))
  | None => None
  end.

Definition should_stop_fetch (o : t) : bool :=
  negb (match fetch_request.debounce_delay (request o) with
        | Some _ => true | None => false end)
  || (fetch_request.min_bytes (request o) <=? machine.to_int32 (response_size o))
  || (match fetch_request.topics (request o) with [] => true | _ :: _ => false end)
  || response_error o.

(** Size of the payload a result carries; an absent record set adds
    nothing. *)
Definition payload_size (r : fetch_response.partition_response) : Z :=
  match fetch_response.record_set r with
  | Some buf => size_bytes buf
  | None => 0
  end.

(** The two mutators as a command language, to speak about call sequences. *)
Inductive call : Type :=
| call_start_response_topic (tp : fetch_request.topic)
| call_add_partition_response (r : fetch_response.partition_response).

Fixpoint run (o : t) (cs : list call) : option t :=
  match cs with
  | [] => Some o
  | call_start_response_topic tp :: rest => run (start_response_topic o tp) rest
  | call_add_partition_response r :: rest =>
      match add_partition_response o r with
      | Some o' => run o' rest
      | None => None
      end
  end.

(** The payload, when there is one, is a [size_t] no larger than the budget
    left at the moment it is folded. *)
Definition fits_budget (o : t) (r : fetch_response.partition_response) : bool :=
  match fetch_response.record_set r with
  | Some buf => (0 <=? size_bytes buf) && (size_bytes buf <=? bytes_left o)
  | None => true
  end.

Fixpoint all_fit_budget (o : t) (cs : list call) : bool :=
  match cs with
  | [] => true
  | call_start_response_topic tp :: rest =>
      all_fit_budget (start_response_topic o tp) rest
  | call_add_partition_response r :: rest =>
      fits_budget o r &&
      match add_partition_response o r with
      | Some o' => all_fit_budget o' rest
      | None => true
      end
  end.

(** Every [add_partition_response] of the sequence comes after some
    [start_response_topic]. *)
Definition started_before_adding (cs : list call) : Prop :=
  forall pre r post,
    cs = pre ++ call_add_partition_response r :: post ->
    exists tp, In (call_start_response_topic tp) pre.

(** Bytes a call adds to the response. *)
Definition call_payload (c : call) : Z :=
  match c with
  | call_start_response_topic _ => 0
  | call_add_partition_response r => payload_size r
  end.

Definition total_payload (cs : list call) : Z :=
  fold_right Z.add 0 (map call_payload cs).

Definition payloads_are_size_t (cs : list call) : Prop :=
  Forall (fun c => machine.is_size_t (call_payload c)) cs.

(** The calls that build one response group per topic: the topic is
    started, then its results are added in order. *)
Definition calls_of_group
    (g : fetch_request.topic * list fetch_response.partition_response)
  : list call :=
  call_start_response_topic (fst g)
  :: map call_add_partition_response (snd g).

Definition calls_of_groups
    (gs : list (fetch_request.topic * list fetch_response.partition_response))
  : list call :=
  flat_map calls_of_group gs.

Definition response_group
    (g : fetch_request.topic * list fetch_response.partition_response)
  : fetch_response.partition :=
  {| fetch_response.name := fetch_request.name (fst g);
     fetch_response.responses := snd g |}.

End op_context.

(** ** Wire codec: the version gate *)

Module wire_codec.

Inductive decode_error : Type :=
| unsupported_version
| malformed_request.

Definition supported (version : api_version) : bool :=
  (fetch_api.min_supported <=? version) && (version <=? fetch_api.max_supported).

(** Modelled from the spec: [fetch_request::decode] is only declared in the
    header, and the dispatch code that checks the negotiated version is not
    part of the sources.  Following the specification, decoding rejects a
    version outside [[min_supported, max_supported]] as a protocol
    violation before touching field parsing; [parse_fields] stands for the
    field parser, whatever it is. *)
Definition decode {Request Bytes : Type}
    (parse_fields : Bytes -> api_version -> option Request)
    (bytes : Bytes) (version : api_version) : Request + decode_error :=
  if supported version then
    match parse_fields bytes version with
    | Some r => inl r
    | None => inr malformed_request
    end
  else inr unsupported_version.

End wire_codec.

(** ** Concrete requests and results used in the examples *)

Module examples.

Definition part (n : Z) : fetch_request.partition :=
  {| fetch_request.id := n;
     fetch_request.current_leader_epoch := -1;
     fetch_request.fetch_offset := 0;
     fetch_request.log_start_offset := 0;
     fetch_request.partition_max_bytes := 1048576 |}.

Definition p0 : fetch_request.partition := part 0.
Definition p1 : fetch_request.partition := part 1.
Definition p2 : fetch_request.partition := part 2.

Definition topic_A : fetch_request.topic :=
  {| fetch_request.name := "A"; fetch_request.partitions := [p0; p1] |}.
Definition topic_B : fetch_request.topic :=
  {| fetch_request.name := "B"; fetch_request.partitions := [] |}.
Definition topic_C : fetch_request.topic :=
  {| fetch_request.name := "C"; fetch_request.partitions := [p2] |}.

Definition request_of (wait min_b max_b : Z) (ts : list fetch_request.topic)
  : fetch_request.t :=
  {| fetch_request.replica_id := -1;
     fetch_request.max_wait_time := wait;
     fetch_request.min_bytes := min_b;
     fetch_request.max_bytes := max_b;
     fetch_request.isolation_level := 0;
     fetch_request.session_id := 0;
     fetch_request.session_epoch := -1;
     fetch_request.topics := ts;
     fetch_request.forgotten_topics := [] |}.

Definition env0 : op_context.env :=
  {| op_context.now := 1000;
     op_context.indeterminate_error := 0;
     op_context.indeterminate_session_id := 0 |}.

Definition result_of (pid : Z) (err : error_code) (payload : option Z)
  : fetch_response.partition_response :=
  {| fetch_response.id := pid;
     fetch_response.error := err;
     fetch_response.high_watermark := 0;
     fetch_response.last_stable_offset := 0;
     fetch_response.log_start_offset := 0;
     fetch_response.aborted_transactions := [];
     fetch_response.record_set := option_map Build_iobuf payload |}.

(** A long-polling request for at least one byte ... *)
Definition long_poll_request : fetch_request.t :=
  request_of 500 1 2147483647 [topic_C].

(** ... answered by a single read that returns 2 GiB. *)
Definition two_gib_calls : list op_context.call :=
  [op_context.call_start_response_topic topic_C;
   op_context.call_add_partition_response (result_of 2 0 (Some (2 ^ 31)))].

(** A long-polling request with [min_bytes = 0]. *)
Definition zero_min_bytes_request : fetch_request.t :=
  request_of 500 0 2147483647 [topic_C].

(** A request capped at ten bytes, answered by a hundred. *)
Definition ten_byte_request : fetch_request.t :=
  request_of 0 1 10 [topic_C].

Definition hundred_byte_calls : list op_context.call :=
  [op_context.call_start_response_topic topic_C;
   op_context.call_add_partition_response (result_of 2 0 (Some 100))].

(** A read that failed with error 3 and carries no records. *)
Definition failed_result : fetch_response.partition_response :=
  result_of 2 3 None.

Definition started_context : op_context.t :=
  op_context.start_response_topic
    (op_context.make env0 long_poll_request) topic_C.

(** Reads that together return exactly the ten bytes asked for. *)
Definition ten_byte_calls : list op_context.call :=
  [op_context.call_start_response_topic topic_A;
   op_context.call_add_partition_response (result_of 0 0 (Some 4));
   op_context.call_add_partition_response (result_of 1 0 None);
   op_context.call_start_response_topic topic_C;
   op_context.call_add_partition_response (result_of 2 0 (Some 6))].

(** The request of the traversal example. *)
Definition abc_request : fetch_request.t :=
  request_of 0 1 1048576 [topic_A; topic_B; topic_C].

(** The groups behind [ten_byte_calls]. *)
Definition ten_byte_groups
  : list (fetch_request.topic * list fetch_response.partition_response) :=
  [(topic_A, [result_of 0 0 (Some 4); result_of 1 0 None]);
   (topic_C, [result_of 2 0 (Some 6)])].

(** Three topics without a single partition. *)
Definition hollow_request : fetch_request.t :=
  request_of 0 1 1048576 [topic_B; topic_B; topic_B].

(** Two topics started, one result folded into each. *)
Definition two_group_calls : list op_context.call :=
  [op_context.call_start_response_topic topic_A;
   op_context.call_add_partition_response (result_of 0 0 (Some 4));
   op_context.call_start_response_topic topic_C;
   op_context.call_add_partition_response (result_of 2 0 (Some 6))].

Definition two_group_context : option op_context.t :=
  op_context.run (op_context.make env0 long_poll_request) two_group_calls.

End examples.

(** * Properties *)

(** ** Machine arithmetic *)

Lemma to_size_t_small (z : Z) : machine.is_size_t z -> machine.to_size_t z = z.
Proof. unfold machine.is_size_t, machine.to_size_t. intros H. apply Z.mod_small; lia. Qed.

Lemma to_size_t_range (z : Z) : machine.is_size_t (machine.to_size_t z).
Proof.
  unfold machine.is_size_t, machine.to_size_t.
  apply Z.mod_pos_bound. lia.
Qed.

Lemma to_int32_small (z : Z) : machine.is_int32 z -> machine.to_int32 z = z.
Proof.
  unfold machine.is_int32, machine.to_int32. intros H.
  rewrite Z.mod_small; lia.
Qed.

Lemma to_size_t_negative (z : Z) :
  - 2 ^ 31 <= z < 0 -> machine.to_size_t z = 2 ^ 64 + z.
Proof.
  intros H. unfold machine.to_size_t.
  symmetry. apply (Z.mod_unique_pos z (2 ^ 64) (-1)); lia.
Qed.

(** ** Vectors *)

Lemma update_back_app {A : Type} (f : A -> A) (v : list A) (x : A) :
  update_back f (v ++ [x]) = Some (v ++ [f x]).
Proof.
  induction v as [|a v IH]; [reflexivity|].
  change ((a :: v) ++ [x]) with (a :: (v ++ [x])).
  cbn [update_back]. rewrite IH.
  destruct v; reflexivity.
Qed.

Lemma update_back_none {A : Type} (f : A -> A) (v : list A) :
  update_back f v = None <-> v = [].
Proof.
  split; [|intros ->; reflexivity].
  destruct v as [|a v] using rev_ind; [reflexivity|].
  rewrite update_back_app. discriminate.
Qed.

(** ** The stop decision *)

Lemma debounce_delay_absent (r : fetch_request.t) :
  fetch_request.debounce_delay r = None <-> fetch_request.max_wait_time r <= 0.
Proof.
  unfold fetch_request.debounce_delay.
  destruct (Z.leb_spec (fetch_request.max_wait_time r) 0); split;
    intros; try reflexivity; try discriminate; lia.
Qed.

(** The disjunction as the code computes it, with the size narrowed to
    [int32_t] before the comparison. *)
Lemma should_stop_fetch_cases (o : op_context.t) :
  op_context.should_stop_fetch o = true <->
  fetch_request.max_wait_time (op_context.request o) <= 0
  \/ fetch_request.min_bytes (op_context.request o)
       <= machine.to_int32 (op_context.response_size o)
  \/ fetch_request.topics (op_context.request o) = []
  \/ op_context.response_error o = true.
Proof.
  unfold op_context.should_stop_fetch, fetch_request.debounce_delay.
  rewrite !orb_true_iff, Z.leb_le.
  destruct (Z.leb_spec (fetch_request.max_wait_time (op_context.request o)) 0);
    destruct (fetch_request.topics (op_context.request o)); cbn;
    intuition (try discriminate; try lia).
Qed.

(** C1, as the code has it.  [should_stop_fetch] is true exactly when the
    debounce delay is absent ([max_wait_time <= 0]), or the response size
    narrowed to a signed 32-bit integer is at least [min_bytes], or the topic
    list is empty, or the error flag is set.  While the response size is
    below [2^31] the narrowing changes nothing and the second disjunct reads
    [response_size >= min_bytes].  A request with [max_wait_time <= 0] always
    stops. *)
Theorem should_stop_fetch_iff (o : op_context.t) :
  (fetch_request.debounce_delay (op_context.request o) = None <->
   fetch_request.max_wait_time (op_context.request o) <= 0)
  /\ (op_context.should_stop_fetch o = true <->
      fetch_request.max_wait_time (op_context.request o) <= 0
      \/ fetch_request.min_bytes (op_context.request o)
           <= machine.to_int32 (op_context.response_size o)
      \/ fetch_request.topics (op_context.request o) = []
      \/ op_context.response_error o = true)
  /\ (0 <= op_context.response_size o < 2 ^ 31 ->
      (op_context.should_stop_fetch o = true <->
       fetch_request.max_wait_time (op_context.request o) <= 0
       \/ fetch_request.min_bytes (op_context.request o) <= op_context.response_size o
       \/ fetch_request.topics (op_context.request o) = []
       \/ op_context.response_error o = true))
  /\ (fetch_request.max_wait_time (op_context.request o) <= 0 ->
      op_context.should_stop_fetch o = true).
Proof.
  split; [apply debounce_delay_absent|].
  split; [apply should_stop_fetch_cases|].
  split.
  - intros Hsmall. rewrite should_stop_fetch_cases.
    rewrite to_int32_small by (unfold machine.is_int32; lia). reflexivity.
  - intros Hwait. apply should_stop_fetch_cases. now left.
Qed.

Lemma should_stop_fetch_iff_witness :
  op_context.should_stop_fetch
    (op_context.make examples.env0 examples.ten_byte_request) = true.
Proof.
  apply (should_stop_fetch_iff
           (op_context.make examples.env0 examples.ten_byte_request)).
  vm_compute. discriminate.
Defined.

(** C1 fails as stated: after a 2 GiB payload the accumulated size is at
    least [min_bytes = 1], yet the narrowed size is negative and the
    long-polling request is told to keep waiting. *)
Lemma should_stop_fetch_two_gib :
  exists o : op_context.t,
    op_context.run (op_context.make examples.env0 examples.long_poll_request)
      examples.two_gib_calls = Some o
    /\ op_context.response_size o = 2 ^ 31
    /\ fetch_request.min_bytes (op_context.request o) <= op_context.response_size o
    /\ op_context.should_stop_fetch o = false.
Proof.
  eexists. split; [vm_compute; reflexivity|].
  split; [reflexivity|]. split; [vm_compute; discriminate|reflexivity].
Qed.

(** C8, as the code has it.  With [min_bytes <= 0] and a response size below
    [2^31], in particular with nothing accumulated and no error seen,
    [should_stop_fetch] is true whatever [max_wait_time] is. *)
Theorem should_stop_fetch_min_bytes_nonpositive (o : op_context.t) :
  fetch_request.min_bytes (op_context.request o) <= 0 ->
  0 <= op_context.response_size o < 2 ^ 31 ->
  op_context.should_stop_fetch o = true.
Proof.
  intros Hmin Hsize. apply should_stop_fetch_cases. right; left.
  rewrite to_int32_small by (unfold machine.is_int32; lia). lia.
Qed.

Lemma should_stop_fetch_min_bytes_nonpositive_witness :
  op_context.response_size
    (op_context.make examples.env0 examples.zero_min_bytes_request) = 0
  /\ op_context.response_error
       (op_context.make examples.env0 examples.zero_min_bytes_request) = false
  /\ op_context.should_stop_fetch
       (op_context.make examples.env0 examples.zero_min_bytes_request) = true.
Proof.
  split; [reflexivity|]. split; [reflexivity|].
  apply (should_stop_fetch_min_bytes_nonpositive
           (op_context.make examples.env0 examples.zero_min_bytes_request)).
  - vm_compute. discriminate.
  - vm_compute. split; [discriminate|reflexivity].
Defined.

(** C8 fails as stated: with [min_bytes = 0] and 2 GiB accumulated the
    narrowed size is negative, so the request keeps long-polling. *)
Lemma should_stop_fetch_zero_min_bytes_two_gib :
  exists o : op_context.t,
    op_context.run
      (op_context.make examples.env0 examples.zero_min_bytes_request)
      examples.two_gib_calls = Some o
    /\ fetch_request.min_bytes (op_context.request o) <= 0
    /\ op_context.should_stop_fetch o = false.
Proof.
  eexists. split; [vm_compute; reflexivity|].
  split; [vm_compute; discriminate|reflexivity].
Qed.

(** ** Budgets *)

(** C9.  A negative [max_bytes] converts to a [size_t] of at least [2^63], so
    the constructor seeds [bytes_left] with the whole 128 MiB ceiling. *)
Theorem negative_max_bytes_seeds_ceiling
    (e : op_context.env) (req : fetch_request.t) :
  - 2 ^ 31 <= fetch_request.max_bytes req < 0 ->
  2 ^ 63 <= machine.to_size_t (fetch_request.max_bytes req)
  /\ op_context.bytes_left (op_context.make e req) = 128 * 2 ^ 20.
Proof.
  intros Hneg. cbn [op_context.make op_context.bytes_left].
  rewrite to_size_t_negative by exact Hneg.
  change op_context.MAX_SIZE with 134217728.
  split; lia.
Qed.

Lemma negative_max_bytes_seeds_ceiling_witness :
  2 ^ 63 <= machine.to_size_t (-1)
  /\ op_context.bytes_left
       (op_context.make examples.env0 (examples.request_of 0 1 (-1) []))
     = 128 * 2 ^ 20.
Proof.
  apply (negative_max_bytes_seeds_ceiling examples.env0
           (examples.request_of 0 1 (-1) [])).
  vm_compute. split; [discriminate|reflexivity].
Defined.

Lemma add_partition_response_budget
    (o o' : op_context.t) (r : fetch_response.partition_response) :
  op_context.add_partition_response o r = Some o' ->
  op_context.bytes_left o' =
    match fetch_response.record_set r with
    | Some buf => machine.to_size_t
                    (op_context.bytes_left o
                     - Z.min (op_context.bytes_left o) (size_bytes buf))
    | None => op_context.bytes_left o
    end
  /\ op_context.response_size o' =
    match fetch_response.record_set r with
    | Some buf => machine.to_size_t (op_context.response_size o + size_bytes buf)
    | None => op_context.response_size o
    end
  /\ op_context.response_error o' = op_context.response_error o
  /\ op_context.request o' = op_context.request o.
Proof.
  unfold op_context.add_partition_response.
  destruct (update_back _ _); [|discriminate].
  intros [= <-]. destruct (fetch_response.record_set r); cbn; auto.
Qed.

(** C5.  Folding a result whose payload has size [s] into a context with
    [bytes_left = b] and at least one topic group started is defined and
    leaves [bytes_left = b - min(b, s)], which is the saturating difference
    [max(0, b - s)] and never negative. *)
Theorem add_partition_response_bytes_left
    (o : op_context.t) (r : fetch_response.partition_response) :
  machine.is_size_t (op_context.bytes_left o) ->
  machine.is_size_t (op_context.payload_size r) ->
  fetch_response.partitions (op_context.response o) <> [] ->
  exists o' : op_context.t,
    op_context.add_partition_response o r = Some o'
    /\ op_context.bytes_left o' =
         op_context.bytes_left o
         - Z.min (op_context.bytes_left o) (op_context.payload_size r)
    /\ op_context.bytes_left o' =
         Z.max 0 (op_context.bytes_left o - op_context.payload_size r)
    /\ 0 <= op_context.bytes_left o'.
Proof.
  unfold machine.is_size_t, op_context.payload_size.
  intros Hb Hs Hne.
  destruct (op_context.add_partition_response o r) as [o'|] eqn:Hadd.
  - exists o'. split; [reflexivity|].
    destruct (add_partition_response_budget _ _ _ Hadd) as [Hleft _].
    rewrite Hleft. clear Hleft Hadd.
    destruct (fetch_response.record_set r) as [buf|].
    + rewrite to_size_t_small by (unfold machine.is_size_t; lia). lia.
    + lia.
  - exfalso. apply Hne.
    unfold op_context.add_partition_response in Hadd.
    destruct (update_back _ _) eqn:Hup; [discriminate|].
    apply update_back_none in Hup.
    destruct (fetch_response.record_set r); exact Hup.
Qed.

Lemma add_partition_response_bytes_left_witness :
  (exists o' : op_context.t,
     op_context.add_partition_response
       (op_context.start_response_topic
          (op_context.make examples.env0 examples.ten_byte_request)
          examples.topic_C)
       (examples.result_of 2 0 (Some 4)) = Some o'
     /\ op_context.bytes_left o' = 6)
  /\ (exists o' : op_context.t,
        op_context.add_partition_response
          (op_context.start_response_topic
             (op_context.make examples.env0 examples.ten_byte_request)
             examples.topic_C)
          (examples.result_of 2 0 (Some 100)) = Some o'
        /\ op_context.bytes_left o' = 0).
Proof.
  split.
  - destruct (add_partition_response_bytes_left
                (op_context.start_response_topic
                   (op_context.make examples.env0 examples.ten_byte_request)
                   examples.topic_C)
                (examples.result_of 2 0 (Some 4)))
      as (o' & Hadd & Hleft & _).
    + vm_compute. split; [discriminate|reflexivity].
    + vm_compute. split; [discriminate|reflexivity].
    + vm_compute. discriminate.
    + exists o'. split; [exact Hadd|]. rewrite Hleft. reflexivity.
  - destruct (add_partition_response_bytes_left
                (op_context.start_response_topic
                   (op_context.make examples.env0 examples.ten_byte_request)
                   examples.topic_C)
                (examples.result_of 2 0 (Some 100)))
      as (o' & Hadd & Hleft & _).
    + vm_compute. split; [discriminate|reflexivity].
    + vm_compute. split; [discriminate|reflexivity].
    + vm_compute. discriminate.
    + exists o'. split; [exact Hadd|]. rewrite Hleft. reflexivity.
Defined.

(** ** Folding results *)

Lemma add_partition_response_groups
    (o : op_context.t) (r : fetch_response.partition_response)
    (front : list fetch_response.partition) (g : fetch_response.partition) :
  fetch_response.partitions (op_context.response o) = front ++ [g] ->
  exists o' : op_context.t,
    op_context.add_partition_response o r = Some o'
    /\ fetch_response.partitions (op_context.response o')
       = front ++ [fetch_response.push_back g r].
Proof.
  intros Hparts. unfold op_context.add_partition_response.
  set (o1 := match fetch_response.record_set r with
             | Some buf => _ | None => o end).
  assert (Ho1 : fetch_response.partitions (op_context.response o1)
                = front ++ [g]).
  { subst o1. destruct (fetch_response.record_set r); exact Hparts. }
  rewrite Ho1, update_back_app. eexists. split; reflexivity.
Qed.

Lemma add_partition_response_undefined
    (o : op_context.t) (r : fetch_response.partition_response) :
  op_context.add_partition_response o r = None <->
  fetch_response.partitions (op_context.response o) = [].
Proof.
  unfold op_context.add_partition_response.
  set (o1 := match fetch_response.record_set r with
             | Some buf => _ | None => o end).
  assert (Ho1 : fetch_response.partitions (op_context.response o1)
                = fetch_response.partitions (op_context.response o)).
  { subst o1. destruct (fetch_response.record_set r); reflexivity. }
  rewrite Ho1.
  destruct (update_back _ _) eqn:Hup.
  - split; [discriminate|]. intros Hnil. rewrite Hnil in Hup. discriminate.
  - split; [|reflexivity]. intros _. apply update_back_none in Hup. exact Hup.
Qed.

(** C3, where the code falls short.  [response_error] is documented as
    telling whether the response contains an error, and the stop decision
    reads it, yet [add_partition_response] never writes it.  A long-polling
    context with one topic started receives a result whose error code is 3:
    the result lands in the response, the flag stays clear and the request
    is told to keep waiting. *)
Theorem add_partition_response_error_not_flagged :
  fetch_response.error examples.failed_result <> error_code_none
  /\ op_context.response_error examples.started_context = false
  /\ exists o' : op_context.t,
       op_context.add_partition_response examples.started_context
         examples.failed_result = Some o'
       /\ fetch_response.partitions (op_context.response o')
          = [{| fetch_response.name := "C"%string;
                fetch_response.responses := [examples.failed_result] |}]
       /\ op_context.response_error o' = false
       /\ op_context.should_stop_fetch o' = false.
Proof.
  split; [vm_compute; discriminate|]. split; [reflexivity|].
  eexists. split; [vm_compute; reflexivity|].
  split; [reflexivity|]. split; reflexivity.
Qed.

(** ** The response size against the budget *)

Lemma start_response_topic_budget (o : op_context.t) (tp : fetch_request.topic) :
  op_context.bytes_left (op_context.start_response_topic o tp)
  = op_context.bytes_left o
  /\ op_context.response_size (op_context.start_response_topic o tp)
     = op_context.response_size o.
Proof. split; reflexivity. Qed.

Lemma run_keeps_budget (seed : Z) (cs : list op_context.call) :
  forall o o' : op_context.t,
    seed < 2 ^ 64 ->
    0 <= op_context.bytes_left o ->
    0 <= op_context.response_size o ->
    op_context.response_size o + op_context.bytes_left o = seed ->
    op_context.all_fit_budget o cs = true ->
    op_context.run o cs = Some o' ->
    0 <= op_context.bytes_left o'
    /\ 0 <= op_context.response_size o'
    /\ op_context.response_size o' + op_context.bytes_left o' = seed.
Proof.
  induction cs as [|c cs IH]; intros o o' Hseed Hleft Hsize Hsum Hfit Hrun.
  - injection Hrun as <-. auto.
  - destruct c as [tp|r]; cbn [op_context.run op_context.all_fit_budget] in *.
    + apply (IH (op_context.start_response_topic o tp)); auto.
    + apply andb_true_iff in Hfit as [Hfits Hrest].
      destruct (op_context.add_partition_response o r) as [o1|] eqn:Hadd;
        [|discriminate].
      destruct (add_partition_response_budget _ _ _ Hadd)
        as (Hl & Hs & _).
      unfold op_context.fits_budget in Hfits.
      destruct (fetch_response.record_set r) as [buf|].
      * apply andb_true_iff in Hfits as [H0 Hle].
        apply Z.leb_le in H0, Hle.
        rewrite to_size_t_small in Hl, Hs
          by (unfold machine.is_size_t; lia).
        apply (IH o1); auto; lia.
      * apply (IH o1); auto; lia.
Qed.

(** C2, as the code has it.  [bytes_left] is seeded with
    [min(128 MiB, size_t(max_bytes))].  Over any sequence of folds in which
    each payload is no larger than the [bytes_left] remaining when it is
    folded, [response_size + bytes_left] stays equal to the seed, so
    [response_size] never exceeds it. *)
Theorem response_size_within_seed
    (e : op_context.env) (req : fetch_request.t)
    (cs : list op_context.call) (o' : op_context.t) :
  op_context.all_fit_budget (op_context.make e req) cs = true ->
  op_context.run (op_context.make e req) cs = Some o' ->
  op_context.bytes_left (op_context.make e req)
    = Z.min (128 * 2 ^ 20) (machine.to_size_t (fetch_request.max_bytes req))
  /\ op_context.response_size o' + op_context.bytes_left o'
     = op_context.bytes_left (op_context.make e req)
  /\ 0 <= op_context.bytes_left o'
  /\ op_context.response_size o'
     <= Z.min (128 * 2 ^ 20) (machine.to_size_t (fetch_request.max_bytes req)).
Proof.
  intros Hfit Hrun.
  pose proof (to_size_t_range (fetch_request.max_bytes req)) as Hrange.
  unfold machine.is_size_t in Hrange.
  assert (Hseed : op_context.bytes_left (op_context.make e req)
                  = Z.min (128 * 2 ^ 20)
                      (machine.to_size_t (fetch_request.max_bytes req)))
    by reflexivity.
  destruct (run_keeps_budget
              (op_context.bytes_left (op_context.make e req)) cs
              (op_context.make e req) o') as (Hl & Hs & Hsum); auto.
  - rewrite Hseed. lia.
  - rewrite Hseed. lia.
  - cbn [op_context.make op_context.response_size]. lia.
  - rewrite Hseed in *. repeat split; auto; lia.
Qed.

Lemma response_size_within_seed_witness :
  exists o' : op_context.t,
    op_context.run (op_context.make examples.env0 examples.ten_byte_request)
      examples.ten_byte_calls = Some o'
    /\ op_context.response_size o' <= 10.
Proof.
  eexists. split; [vm_compute; reflexivity|].
  refine (proj2 (proj2 (proj2
    (response_size_within_seed examples.env0 examples.ten_byte_request
       examples.ten_byte_calls _ _ _)))).
  - vm_compute. reflexivity.
  - vm_compute. reflexivity.
Defined.

(** C2 fails as stated: a request capped at ten bytes whose only read
    returns a hundred ends with [response_size = 100]. *)
Lemma response_size_exceeds_seed :
  exists o' : op_context.t,
    op_context.run (op_context.make examples.env0 examples.ten_byte_request)
      examples.hundred_byte_calls = Some o'
    /\ op_context.bytes_left
         (op_context.make examples.env0 examples.ten_byte_request) = 10
    /\ Z.min op_context.MAX_SIZE
         (fetch_request.max_bytes examples.ten_byte_request) = 10
    /\ op_context.response_size o' = 100
    /\ ~ op_context.response_size o'
         <= Z.min op_context.MAX_SIZE
              (fetch_request.max_bytes examples.ten_byte_request).
Proof.
  eexists. split; [vm_compute; reflexivity|].
  repeat split; try reflexivity.
  vm_compute. intros H. apply H. reflexivity.
Qed.

(** ** Topic groups *)

Lemma run_defined_after_start (cs : list op_context.call) :
  forall o : op_context.t,
    fetch_response.partitions (op_context.response o) <> [] ->
    exists o', op_context.run o cs = Some o'.
Proof.
  induction cs as [|c cs IH]; intros o Hne; [eexists; reflexivity|].
  destruct c as [tp|r]; cbn [op_context.run].
  - apply IH. cbn. intros H. apply app_eq_nil in H as [_ H]. discriminate.
  - destruct (fetch_response.partitions (op_context.response o))
      as [|g front _] eqn:Hparts using rev_ind; [congruence|].
    destruct (add_partition_response_groups o r front g Hparts)
      as (o1 & -> & Hres).
    apply IH. rewrite Hres. intros H.
    apply app_eq_nil in H as [_ H]. discriminate.
Qed.

(** C10.  [add_partition_response] is undefined exactly when
    [response.partitions] is empty; otherwise it leaves the groups before
    the last alone and puts the result behind the results the last group
    already holds.  Right after [start_response_topic] the last group is
    that topic's.  A sequence of calls on a fresh context is defined exactly
    when every [add_partition_response] in it comes after some
    [start_response_topic]. *)
Theorem add_partition_response_appends_to_back :
  (forall o r,
     op_context.add_partition_response o r = None <->
     fetch_response.partitions (op_context.response o) = [])
  /\ (forall o r front g,
        fetch_response.partitions (op_context.response o) = front ++ [g] ->
        exists o',
          op_context.add_partition_response o r = Some o'
          /\ fetch_response.partitions (op_context.response o')
             = front
               ++ [{| fetch_response.name := fetch_response.name g;
                      fetch_response.responses
                        := fetch_response.responses g ++ [r] |}])
  /\ (forall o tp r,
        exists o',
          op_context.add_partition_response
            (op_context.start_response_topic o tp) r = Some o'
          /\ fetch_response.partitions (op_context.response o')
             = fetch_response.partitions (op_context.response o)
               ++ [{| fetch_response.name := fetch_request.name tp;
                      fetch_response.responses := [r] |}])
  /\ (forall e req cs,
        (exists o', op_context.run (op_context.make e req) cs = Some o') <->
        op_context.started_before_adding cs).
Proof.
  split; [exact add_partition_response_undefined|].
  split.
  { intros o r front g Hparts.
    destruct (add_partition_response_groups o r front g Hparts)
      as (o' & Hadd & Hres).
    exists o'. split; [exact Hadd|]. rewrite Hres. reflexivity. }
  split.
  - intros o tp r.
    destruct (add_partition_response_groups
                (op_context.start_response_topic o tp) r
                (fetch_response.partitions (op_context.response o))
                (fetch_response.make_partition (fetch_request.name tp))
                eq_refl) as (o' & Hadd & Hres).
    exists o'. split; [exact Hadd|]. rewrite Hres. reflexivity.
  - intros e req cs. split.
    + intros [o' Hrun] pre r post ->.
      destruct pre as [|[tp|r'] pre]; cbn [app op_context.run] in Hrun.
      * rewrite (proj2 (add_partition_response_undefined
                          (op_context.make e req) r) eq_refl) in Hrun.
        discriminate.
      * exists tp. now left.
      * rewrite (proj2 (add_partition_response_undefined
                          (op_context.make e req) r') eq_refl) in Hrun.
        discriminate.
    + intros Hstarted. destruct cs as [|[tp|r] cs].
      * eexists. reflexivity.
      * cbn [op_context.run]. apply run_defined_after_start.
        cbn. discriminate.
      * destruct (Hstarted [] r cs eq_refl) as [tp []].
Qed.

Lemma add_partition_response_appends_to_back_witness :
  exists o,
    examples.two_group_context = Some o
    /\ exists o',
         op_context.add_partition_response o examples.failed_result = Some o'
         /\ fetch_response.partitions (op_context.response o')
            = [{| fetch_response.name := "A"%string;
                  fetch_response.responses
                    := [examples.result_of 0 0 (Some 4)] |};
               {| fetch_response.name := "C"%string;
                  fetch_response.responses
                    := [examples.result_of 2 0 (Some 6);
                        examples.failed_result] |}].
Proof.
  eexists. split; [vm_compute; reflexivity|].
  apply (proj1 (proj2 add_partition_response_appends_to_back) _
           examples.failed_result
           [{| fetch_response.name := "A"%string;
               fetch_response.responses
                 := [examples.result_of 0 0 (Some 4)] |}]
           {| fetch_response.name := "C"%string;
              fetch_response.responses
                := [examples.result_of 2 0 (Some 6)] |}).
  reflexivity.
Defined.

(** ** The version gate *)

(** C7.  The supported versions of fetch are 4 to 10 inclusive, and decoding
    with a version outside that range (version 3, say) yields the
    unsupported-version error whatever the bytes and whatever the field
    parser would have done with them. *)
Theorem decode_rejects_unsupported_version
    {Request Bytes : Type} (bytes : Bytes) (version : api_version) :
  fetch_api.min_supported = 4
  /\ fetch_api.max_supported = 10
  /\ (wire_codec.supported version = true <-> 4 <= version <= 10)
  /\ (version < 4 \/ 10 < version ->
      forall parse_fields : Bytes -> api_version -> option Request,
        wire_codec.decode parse_fields bytes version
        = inr wire_codec.unsupported_version)
  /\ (forall parse_fields : Bytes -> api_version -> option Request,
        wire_codec.decode parse_fields bytes 3
        = inr wire_codec.unsupported_version).
Proof.
  assert (Hsup : wire_codec.supported version = true <-> 4 <= version <= 10).
  { unfold wire_codec.supported, fetch_api.min_supported,
      fetch_api.max_supported.
    rewrite andb_true_iff, !Z.leb_le. reflexivity. }
  split; [reflexivity|]. split; [reflexivity|]. split; [exact Hsup|].
  split; [|reflexivity].
  intros Hout parse_fields. unfold wire_codec.decode.
  destruct (wire_codec.supported version); [|reflexivity].
  pose proof (proj1 Hsup eq_refl). lia.
Qed.

Lemma decode_rejects_unsupported_version_witness :
  wire_codec.decode (fun (_ : list nat) (_ : api_version) => Some tt) [] 11
  = inr wire_codec.unsupported_version.
Proof.
  apply (decode_rejects_unsupported_version (Request := unit) [] 11).
  right. reflexivity.
Defined.

(** ** The partition iterator *)

Lemma partition_iterator_eqb_eq
    (a b : fetch_request.const_iterator.const_partition_iterator) :
  fetch_request.const_iterator.partition_iterator_eqb a b = true <-> a = b.
Proof.
  destruct a as [[va oa]|], b as [[vb ob]|]; cbn;
    rewrite ?andb_true_iff, ?Nat.eqb_eq; split;
    try discriminate; try reflexivity.
  - intros [-> ->]. reflexivity.
  - intros [= -> ->]. auto.
Qed.

Lemma skipn_nth_error {A : Type} (l : list A) :
  forall (n : nat) (x : A),
    nth_error l n = Some x -> skipn n l = x :: skipn (S n) l.
Proof.
  induction l as [|a l IH]; intros [|n] x H; try discriminate.
  - injection H as ->. reflexivity.
  - cbn in H. apply IH in H. exact H.
Qed.

Lemma flagged_partitions_length (tp : fetch_request.topic) :
  length (fetch_request.flagged_partitions tp)
  = length (fetch_request.partitions tp).
Proof.
  unfold fetch_request.flagged_partitions.
  destruct (fetch_request.partitions tp); cbn; [reflexivity|].
  now rewrite length_map.
Qed.

Lemma spec_traversal_length (ts : list fetch_request.topic) :
  length (fetch_request.spec_traversal ts) = fetch_request.count_partitions ts.
Proof.
  unfold fetch_request.spec_traversal, fetch_request.count_partitions.
  induction ts as [|tp ts IH]; [reflexivity|].
  cbn. rewrite length_app, flagged_partitions_length, IH. reflexivity.
Qed.

Section iterating.

Variable topics : list fetch_request.topic.

Import fetch_request.const_iterator.

Local Abbreviation remaining := (fetch_request.remaining topics).
Local Abbreviation positioned := (fetch_request.positioned topics).
Local Abbreviation normalized := (fetch_request.normalized topics).

Lemma normalize_unfold (it : t) :
  normalize topics it =
  match normalize_step topics it with
  | loop_exit it' => Some it'
  | loop_again it' => normalize topics it'
  | loop_undefined => None
  end.
Proof.
  funelim (normalize topics it);
    match goal with e : normalize_step _ _ = _ |- _ => rewrite e end;
    reflexivity.
Qed.

Lemma remaining_at_topic_start (ti : nat) (tp : fetch_request.topic) (last : nat) :
  nth_error topics ti = Some tp ->
  remaining {| state_ := {| new_topic := true; topic := ti;
                            partition := partitions_cbegin ti |};
               t_end_ := last |}
  = fetch_request.spec_traversal (skipn ti topics).
Proof.
  intros Hnth. unfold fetch_request.remaining. cbn. rewrite Hnth.
  rewrite (skipn_nth_error _ _ _ Hnth). reflexivity.
Qed.

(** [normalize] moves a cursor that sits inside a topic to the next
    partition there is, or to the end; nothing to be yielded is lost. *)
Lemma normalize_positioned (n : nat) :
  forall it : t,
    (length topics - topic (state_ it) <= n)%nat ->
    positioned it ->
    exists it', normalize topics it = Some it'
                /\ normalized it' /\ remaining it' = remaining it.
Proof.
  induction n as [|n IH]; intros it Hn (Hend & tp & x & Hnth & Hpart & Hvec & Hoff).
  - assert (topic (state_ it) < length topics)%nat
      by (apply nth_error_Some; congruence). lia.
  - assert (Hlt : (topic (state_ it) < length topics)%nat)
      by (apply nth_error_Some; congruence).
    rewrite normalize_unfold. unfold normalize_step. cbv zeta.
    rewrite Hnth, Hpart. unfold partitions_cend.
    cbn [partition_iterator_eqb vec off].
    rewrite Hvec, Nat.eqb_refl. cbn [andb].
    destruct (Nat.eqb_spec (off x) (length (fetch_request.partitions tp)))
      as [Hfull|Hnot].
    + assert (Hrem : remaining it
                     = fetch_request.spec_traversal
                         (skipn (S (topic (state_ it))) topics)).
      { unfold fetch_request.remaining. rewrite Hnth, Hpart.
        unfold fetch_request.remaining_in_topic.
        rewrite Hfull, skipn_all. reflexivity. }
      rewrite Hend.
      destruct (Nat.eqb_spec (S (topic (state_ it))) (length topics))
        as [Elast|Emore]; cbn [negb].
      * eexists. split; [reflexivity|]. split.
        -- split; [reflexivity|]. left. exact Elast.
        -- rewrite Hrem, Elast, skipn_all.
           unfold fetch_request.remaining.
           cbn [state_ topic partition new_topic].
           destruct (nth_error topics (length topics)) eqn:Hn2; [|reflexivity].
           assert (length topics < length topics)%nat
             by (apply nth_error_Some; congruence). lia.
      * destruct (nth_error topics (S (topic (state_ it)))) as [tq|] eqn:Hnext.
        2:{ apply nth_error_None in Hnext. lia. }
        destruct (IH {| state_ := {| new_topic := true;
                                     topic := S (topic (state_ it));
                                     partition := partitions_cbegin
                                                    (S (topic (state_ it))) |};
                        t_end_ := length topics |})
          as (it' & Hnorm & Hvalid & Hsame).
        -- cbn. lia.
        -- split; [reflexivity|]. exists tq, {| vec := S (topic (state_ it)); off := 0%nat |}.
           cbn. repeat split; auto. lia.
        -- exists it'. split; [exact Hnorm|]. split; [exact Hvalid|].
           rewrite Hsame, Hrem. apply remaining_at_topic_start with (tp := tq).
           exact Hnext.
    + exists it. split; [reflexivity|]. split; [|reflexivity].
      split; [exact Hend|]. right. exists tp, x. repeat split; auto. lia.
Qed.

Lemma normalize_defined (it : t) :
  positioned it ->
  exists it', normalize topics it = Some it'
              /\ normalized it' /\ remaining it' = remaining it.
Proof. apply (normalize_positioned (length topics - topic (state_ it))). lia. Qed.

Local Abbreviation cend_cursor := (cend_cursor topics).

Lemma cend_defined : cend topics = Some cend_cursor.
Proof. unfold cend, construct. rewrite Nat.eqb_refl. reflexivity. Qed.

Lemma cbegin_defined :
  exists it, cbegin topics = Some it
             /\ normalized it
             /\ remaining it = fetch_request.spec_traversal topics.
Proof.
  unfold cbegin, construct.
  destruct topics as [|tp ts] eqn:Htopics.
  - eexists. split; [reflexivity|]. split; [|reflexivity].
    split; [reflexivity|]. left. reflexivity.
  - rewrite <- Htopics. replace (0 =? length topics)%nat with false
      by (rewrite Htopics; reflexivity). cbn [negb].
    destruct (normalize_defined
                {| state_ := {| new_topic := true; topic := 0%nat;
                                partition := partitions_cbegin 0%nat |};
                   t_end_ := length topics |}) as (it' & Hnorm & Hvalid & Hsame).
    + split; [reflexivity|]. exists tp, {| vec := 0%nat; off := 0%nat |}.
      rewrite Htopics. cbn. repeat split; auto. lia.
    + exists it'. split; [exact Hnorm|]. split; [exact Hvalid|].
      rewrite Hsame. apply remaining_at_topic_start with (tp := tp).
      rewrite Htopics. reflexivity.
Qed.

Lemma remaining_in_topic_unflagged (tp : fetch_request.topic) (k : nat) :
  fetch_request.remaining_in_topic false tp k
  = map (fun q => (false, tp, q)) (skipn k (fetch_request.partitions tp)).
Proof.
  unfold fetch_request.remaining_in_topic.
  destruct (skipn k (fetch_request.partitions tp)); reflexivity.
Qed.

(** Reading through a cursor that is not at the end and advancing it. *)
Lemma incr_normalized (it : t) :
  normalized it ->
  topic (state_ it) <> length topics ->
  exists v it',
    deref topics (state_ it) = Some v
    /\ op_incr topics it = Some it'
    /\ normalized it'
    /\ remaining it = v :: remaining it'.
Proof.
  intros [Hend [Hlast|(tp & x & Hnth & Hpart & Hvec & Hoff)]] Hmore;
    [contradiction|].
  destruct (nth_error (fetch_request.partitions tp) (off x)) as [p|] eqn:Hp.
  2:{ apply nth_error_None in Hp. lia. }
  destruct (normalize_defined
              {| state_ := {| new_topic := false; topic := topic (state_ it);
                              partition := Some {| vec := vec x;
                                                   off := S (off x) |} |};
                 t_end_ := t_end_ it |}) as (it' & Hnorm & Hvalid & Hsame).
  { split; [exact Hend|]. exists tp, {| vec := vec x; off := S (off x) |}.
    cbn. repeat split; auto. }
  exists (new_topic (state_ it), tp, p), it'.
  split; [|split; [|split; [exact Hvalid|]]].
  - unfold deref. rewrite Hnth, Hpart, Hvec, Hnth, Hp. reflexivity.
  - unfold op_incr, partition_incr. rewrite Hpart, Hvec, Hnth.
    replace (off x <? length (fetch_request.partitions tp))%nat with true
      by (symmetry; apply Nat.ltb_lt; exact Hoff).
    rewrite <- Hvec at 2. exact Hnorm.
  - rewrite Hsame. unfold fetch_request.remaining.
    cbn [state_ topic partition new_topic off]. rewrite Hnth, Hpart.
    rewrite remaining_in_topic_unflagged.
    unfold fetch_request.remaining_in_topic.
    rewrite (skipn_nth_error _ _ _ Hp). reflexivity.
Qed.

Lemma op_eq_cend (it : t) :
  t_end_ it = length topics ->
  op_eq it cend_cursor = Nat.eqb (topic (state_ it)) (length topics).
Proof.
  intros Hend. unfold op_eq. cbn [cend_cursor state_ topic].
  rewrite Hend. destruct (Nat.eqb _ _); reflexivity.
Qed.

Lemma remaining_nil_iff (it : t) :
  normalized it ->
  (topic (state_ it) = length topics <-> remaining it = []).
Proof.
  intros Hvalid. split.
  - intros Hlast. unfold fetch_request.remaining. rewrite Hlast.
    destruct (nth_error topics (length topics)) eqn:Hn; [|reflexivity].
    assert (length topics < length topics)%nat
      by (apply nth_error_Some; congruence). lia.
  - intros Hnil.
    destruct (Nat.eq_dec (topic (state_ it)) (length topics)) as [|Hmore];
      [assumption|].
    destruct (incr_normalized it Hvalid Hmore) as (v & it' & _ & _ & _ & Hrem).
    congruence.
Qed.

(** The loop yields what remains, given one unit of fuel per element. *)
Lemma traverse_remaining (fuel : nat) :
  forall it : t,
    normalized it ->
    (length (remaining it) <= fuel)%nat ->
    traverse topics fuel it cend_cursor = Some (remaining it).
Proof.
  induction fuel as [|fuel IH]; intros it Hvalid Hfuel.
  - assert (Hnil : remaining it = [])
      by (destruct (remaining it); [reflexivity|cbn in Hfuel; lia]).
    cbn [traverse]. unfold op_neq. rewrite op_eq_cend by apply Hvalid.
    rewrite Hnil. apply remaining_nil_iff in Hnil; [|exact Hvalid].
    rewrite Hnil, Nat.eqb_refl. reflexivity.
  - cbn [traverse]. unfold op_neq. rewrite op_eq_cend by apply Hvalid.
    destruct (Nat.eqb_spec (topic (state_ it)) (length topics)) as [Hlast|Hmore];
      cbn [negb].
    + apply remaining_nil_iff in Hlast; [|exact Hvalid].
      rewrite Hlast. reflexivity.
    + destruct (incr_normalized it Hvalid Hmore)
        as (v & it' & Hderef & Hincr & Hvalid' & Hrem).
      rewrite Hderef, Hincr, Hrem, IH; [reflexivity|exact Hvalid'|].
      rewrite Hrem in Hfuel. cbn in Hfuel. lia.
Qed.

Lemma traversal_spec (fuel : nat) :
  (fetch_request.count_partitions topics <= fuel)%nat ->
  traversal topics fuel = Some (fetch_request.spec_traversal topics).
Proof.
  intros Hfuel. unfold traversal.
  destruct cbegin_defined as (it & -> & Hvalid & Hrem).
  rewrite cend_defined, <- Hrem. apply traverse_remaining; [exact Hvalid|].
  rewrite Hrem, spec_traversal_length. exact Hfuel.
Qed.

Lemma op_incr_at_end (it : t) :
  topic (state_ it) = length topics -> op_incr topics it = None.
Proof.
  intros Hlast. unfold op_incr.
  destruct (partition_incr topics (partition (state_ it))); [|reflexivity].
  rewrite normalize_unfold. unfold normalize_step.
  cbn [state_ topic]. rewrite Hlast.
  destruct (nth_error topics (length topics)) eqn:Hn; [|reflexivity].
  assert (length topics < length topics)%nat
    by (apply nth_error_Some; congruence). lia.
Qed.

Lemma reachable_normalized (it : t) :
  fetch_request.reachable topics it -> normalized it.
Proof.
  induction 1 as [it Hbegin|it Hcend|it it' Hreach IH Hincr].
  - destruct cbegin_defined as (it0 & Hb & Hvalid & _). congruence.
  - rewrite cend_defined in Hcend. injection Hcend as <-.
    split; [reflexivity|]. left. reflexivity.
  - destruct (Nat.eq_dec (topic (state_ it)) (length topics)) as [Hlast|Hmore].
    + rewrite op_incr_at_end in Hincr by exact Hlast. discriminate.
    + destruct (incr_normalized it IH Hmore) as (v & it2 & _ & Hi & Hvalid & _).
      congruence.
Qed.

End iterating.

Lemma spec_traversal_order (ts : list fetch_request.topic) :
  map (fun v => (snd (fst v), snd v)) (fetch_request.spec_traversal ts)
  = flat_map (fun tp => map (pair tp) (fetch_request.partitions tp)) ts.
Proof.
  unfold fetch_request.spec_traversal.
  induction ts as [|tp ts IH]; [reflexivity|].
  cbn [flat_map]. rewrite map_app, IH. f_equal.
  unfold fetch_request.flagged_partitions.
  destruct (fetch_request.partitions tp) as [|p ps]; [reflexivity|].
  cbn. f_equal. rewrite map_map. reflexivity.
Qed.

(** C4.  Iterating from [cbegin()] to [cend()] ends and yields the
    partitions in request order: topic after topic, the partitions of a topic
    in their order, nothing for a topic without partitions, and [new_topic]
    set on the first partition yielded for a topic and on no other.  For the
    topics A with p0 and p1, B with none, C with p2 the yield is
    (true, A, p0), (false, A, p1), (true, C, p2). *)
Theorem traversal_in_request_order (req : fetch_request.t) (fuel : nat) :
  (fetch_request.count_partitions (fetch_request.topics req) <= fuel)%nat ->
  fetch_request.const_iterator.traversal (fetch_request.topics req) fuel
  = Some (fetch_request.spec_traversal (fetch_request.topics req))
  /\ map (fun v => (snd (fst v), snd v))
         (fetch_request.spec_traversal (fetch_request.topics req))
     = flat_map (fun tp => map (pair tp) (fetch_request.partitions tp))
         (fetch_request.topics req)
  /\ fetch_request.const_iterator.traversal
       [examples.topic_A; examples.topic_B; examples.topic_C] 3
     = Some [(true, examples.topic_A, examples.p0);
             (false, examples.topic_A, examples.p1);
             (true, examples.topic_C, examples.p2)].
Proof.
  intros Hfuel. split; [apply traversal_spec; exact Hfuel|].
  split; [apply spec_traversal_order|].
  apply (traversal_spec [examples.topic_A; examples.topic_B; examples.topic_C]).
  cbn. lia.
Qed.

Lemma traversal_in_request_order_witness :
  fetch_request.const_iterator.traversal
    (fetch_request.topics examples.abc_request) 3
  = Some [(true, examples.topic_A, examples.p0);
          (false, examples.topic_A, examples.p1);
          (true, examples.topic_C, examples.p2)].
Proof.
  refine (proj1 (traversal_in_request_order examples.abc_request 3 _)).
  vm_compute. lia.
Defined.

(** C6.  Two cursors compare equal exactly when they are at the same topic
    position and, unless that position is the end of the topics, at the same
    partition position.  A cursor over a request equals [cend()] exactly when
    its topic position is past the last topic, which for the cursors of an
    iteration is exactly when nothing remains to be yielded. *)
Theorem const_iterator_equality
    (ts : list fetch_request.topic) (a b : fetch_request.const_iterator.t) :
  (fetch_request.const_iterator.op_eq a b = true <->
   fetch_request.const_iterator.topic (fetch_request.const_iterator.state_ a)
   = fetch_request.const_iterator.topic (fetch_request.const_iterator.state_ b)
   /\ (fetch_request.const_iterator.topic (fetch_request.const_iterator.state_ a)
       <> fetch_request.const_iterator.t_end_ a ->
       fetch_request.const_iterator.partition (fetch_request.const_iterator.state_ a)
       = fetch_request.const_iterator.partition
           (fetch_request.const_iterator.state_ b)))
  /\ (exists e, fetch_request.const_iterator.cend ts = Some e
      /\ (fetch_request.const_iterator.t_end_ a = length ts ->
          (fetch_request.const_iterator.op_eq a e = true <->
           fetch_request.const_iterator.topic
             (fetch_request.const_iterator.state_ a) = length ts))
      /\ (fetch_request.reachable ts a ->
          (fetch_request.const_iterator.op_eq a e = true <->
           fetch_request.remaining ts a = []))).
Proof.
  split.
  - unfold fetch_request.const_iterator.op_eq.
    destruct (Nat.eqb_spec
                (fetch_request.const_iterator.topic
                   (fetch_request.const_iterator.state_ a))
                (fetch_request.const_iterator.topic
                   (fetch_request.const_iterator.state_ b))) as [Htopic|Htopic].
    + destruct (Nat.eqb_spec
                  (fetch_request.const_iterator.topic
                     (fetch_request.const_iterator.state_ a))
                  (fetch_request.const_iterator.t_end_ a)) as [Hend|Hend].
      * split; [|reflexivity]. intros _. split; [exact Htopic|]. contradiction.
      * rewrite partition_iterator_eqb_eq. split.
        -- intros Hpart. split; [exact Htopic|]. intros _. exact Hpart.
        -- intros [_ Hpart]. apply Hpart. exact Hend.
    + split; [discriminate|]. intros [Heq _]. contradiction.
  - exists (fetch_request.const_iterator.cend_cursor ts).
    split; [apply cend_defined|]. split.
    + intros Hend. rewrite op_eq_cend by exact Hend. apply Nat.eqb_eq.
    + intros Hreach. apply reachable_normalized in Hreach.
      rewrite op_eq_cend by apply Hreach.
      rewrite Nat.eqb_eq. apply remaining_nil_iff. exact Hreach.
Qed.

Lemma const_iterator_equality_witness :
  exists first e,
    fetch_request.cbegin examples.abc_request = Some first
    /\ fetch_request.cend examples.abc_request = Some e
    /\ fetch_request.const_iterator.op_eq first e = false
    /\ (fetch_request.const_iterator.op_eq e e = true <->
        fetch_request.const_iterator.topic
          (fetch_request.const_iterator.state_ e) = 3%nat).
Proof.
  eexists. eexists.
  split; [vm_compute; reflexivity|]. split; [vm_compute; reflexivity|].
  split; [vm_compute; reflexivity|].
  destruct (proj2 (const_iterator_equality
                     (fetch_request.topics examples.abc_request)
                     (fetch_request.const_iterator.cend_cursor
                        (fetch_request.topics examples.abc_request))
                     (fetch_request.const_iterator.cend_cursor
                        (fetch_request.topics examples.abc_request))))
    as (e & He & Hat_end & _).
  vm_compute in He. injection He as <-.
  apply Hat_end. reflexivity.
Defined.

(** * Further properties of the operation context *)

Lemma add_partition_response_frame
    (o o' : op_context.t) (r : fetch_response.partition_response) :
  op_context.add_partition_response o r = Some o' ->
  op_context.request o' = op_context.request o
  /\ op_context.deadline o' = op_context.deadline o
  /\ op_context.response_error o' = op_context.response_error o
  /\ op_context.initial_fetch o' = op_context.initial_fetch o
  /\ fetch_response.throttle_time (op_context.response o')
     = fetch_response.throttle_time (op_context.response o)
  /\ fetch_response.error_ (op_context.response o')
     = fetch_response.error_ (op_context.response o)
  /\ fetch_response.session_id (op_context.response o')
     = fetch_response.session_id (op_context.response o).
Proof.
  unfold op_context.add_partition_response.
  destruct (update_back _ _); [|discriminate].
  intros [= <-]. destruct (fetch_response.record_set r); cbn; auto 10.
Qed.

Lemma run_frame (cs : list op_context.call) :
  forall o o' : op_context.t,
    op_context.run o cs = Some o' ->
    op_context.request o' = op_context.request o
    /\ op_context.deadline o' = op_context.deadline o
    /\ op_context.response_error o' = op_context.response_error o
    /\ op_context.initial_fetch o' = op_context.initial_fetch o
    /\ fetch_response.throttle_time (op_context.response o')
       = fetch_response.throttle_time (op_context.response o)
    /\ fetch_response.error_ (op_context.response o')
       = fetch_response.error_ (op_context.response o)
    /\ fetch_response.session_id (op_context.response o')
       = fetch_response.session_id (op_context.response o).
Proof.
  induction cs as [|[tp|r] cs IH]; intros o o' Hrun; cbn [op_context.run] in Hrun.
  - injection Hrun as <-. auto 10.
  - apply IH in Hrun. exact Hrun.
  - destruct (op_context.add_partition_response o r) as [o1|] eqn:Hadd;
      [|discriminate].
    apply IH in Hrun. apply add_partition_response_frame in Hadd.
    intuition congruence.
Qed.

(** X1.  Whatever calls are made, the request, the deadline, the error flag,
    [initial_fetch] and the response's throttle time, error and session id
    stay as they were: the two mutators only touch the budgets and the
    groups. *)
Theorem run_touches_budgets_and_groups_only
    (cs : list op_context.call) (o o' : op_context.t) :
  op_context.run o cs = Some o' ->
  op_context.request o' = op_context.request o
  /\ op_context.deadline o' = op_context.deadline o
  /\ op_context.response_error o' = op_context.response_error o
  /\ op_context.initial_fetch o' = op_context.initial_fetch o
  /\ fetch_response.throttle_time (op_context.response o')
     = fetch_response.throttle_time (op_context.response o)
  /\ fetch_response.error_ (op_context.response o')
     = fetch_response.error_ (op_context.response o)
  /\ fetch_response.session_id (op_context.response o')
     = fetch_response.session_id (op_context.response o).
Proof. apply run_frame. Qed.

Lemma run_touches_budgets_and_groups_only_witness :
  exists o' : op_context.t,
    op_context.run (op_context.make examples.env0 examples.ten_byte_request)
      examples.ten_byte_calls = Some o'
    /\ op_context.response_error o' = false.
Proof.
  eexists. split; [vm_compute; reflexivity|].
  refine (proj1 (proj2 (proj2
    (run_touches_budgets_and_groups_only examples.ten_byte_calls
       (op_context.make examples.env0 examples.ten_byte_request) _ _)))).
  vm_compute. reflexivity.
Defined.

Lemma total_payload_nonneg (cs : list op_context.call) :
  op_context.payloads_are_size_t cs -> 0 <= op_context.total_payload cs.
Proof.
  unfold op_context.payloads_are_size_t, op_context.total_payload.
  induction 1 as [|c cs Hc _ IH]; cbn; [lia|].
  unfold machine.is_size_t in Hc. lia.
Qed.

Lemma run_budget_closed_form (cs : list op_context.call) :
  forall o o' : op_context.t,
    machine.is_size_t (op_context.bytes_left o) ->
    machine.is_size_t (op_context.response_size o) ->
    op_context.payloads_are_size_t cs ->
    op_context.run o cs = Some o' ->
    op_context.bytes_left o'
    = Z.max 0 (op_context.bytes_left o - op_context.total_payload cs)
    /\ op_context.response_size o'
       = machine.to_size_t
           (op_context.response_size o + op_context.total_payload cs).
Proof.
  induction cs as [|c cs IH]; intros o o' Hleft Hsize Hsizes Hrun.
  - injection Hrun as <-. unfold op_context.total_payload. cbn.
    rewrite Z.add_0_r, to_size_t_small by exact Hsize.
    unfold machine.is_size_t in Hleft. lia.
  - inversion Hsizes as [|c' cs' Hc Hrest]; subst.
    pose proof (total_payload_nonneg cs Hrest) as Hnonneg.
    change (op_context.total_payload (c :: cs))
      with (op_context.call_payload c + op_context.total_payload cs).
    destruct c as [tp|r]; cbn [op_context.run op_context.call_payload] in *.
    + destruct (IH (op_context.start_response_topic o tp) o' Hleft Hsize
                  Hrest Hrun) as [Hl Hs].
      rewrite Hl, Hs. cbn [op_context.start_response_topic
                             op_context.set_response op_context.bytes_left
                             op_context.response_size].
      split; f_equal; lia.
    + destruct (op_context.add_partition_response o r) as [o1|] eqn:Hadd;
        [|discriminate].
      destruct (add_partition_response_budget _ _ _ Hadd) as (Hl1 & Hs1 & _).
      unfold op_context.payload_size in *.
      unfold machine.is_size_t in Hleft, Hc.
      assert (Hl1' : op_context.bytes_left o1
                     = Z.max 0 (op_context.bytes_left o
                                - match fetch_response.record_set r with
                                  | Some buf => size_bytes buf
                                  | None => 0
                                  end)).
      { rewrite Hl1. destruct (fetch_response.record_set r) as [buf|].
        - rewrite to_size_t_small by (unfold machine.is_size_t; lia). lia.
        - lia. }
      assert (Hs1' : op_context.response_size o1
                     = machine.to_size_t
                         (op_context.response_size o
                          + match fetch_response.record_set r with
                            | Some buf => size_bytes buf
                            | None => 0
                            end)).
      { rewrite Hs1. destruct (fetch_response.record_set r) as [buf|];
          [reflexivity|].
        rewrite Z.add_0_r, to_size_t_small by exact Hsize. reflexivity. }
      destruct (IH o1 o') as [Hl Hs]; auto.
      * rewrite Hl1'. unfold machine.is_size_t. lia.
      * rewrite Hs1'. apply to_size_t_range.
      * rewrite Hl, Hs, Hl1', Hs1'. split; [lia|].
        unfold machine.to_size_t.
        rewrite Zplus_mod_idemp_l. f_equal. lia.
Qed.

(** X2.  With [size_t] payloads, after any sequence of calls [bytes_left] is
    the starting budget less all the bytes added, cut off at zero, and
    [response_size] is the starting size plus all the bytes added, modulo
    [2^64].  In particular [bytes_left] never grows. *)
Theorem run_budget_totals
    (cs : list op_context.call) (o o' : op_context.t) :
  machine.is_size_t (op_context.bytes_left o) ->
  machine.is_size_t (op_context.response_size o) ->
  op_context.payloads_are_size_t cs ->
  op_context.run o cs = Some o' ->
  op_context.bytes_left o'
  = Z.max 0 (op_context.bytes_left o - op_context.total_payload cs)
  /\ op_context.response_size o'
     = machine.to_size_t
         (op_context.response_size o + op_context.total_payload cs)
  /\ 0 <= op_context.bytes_left o' <= op_context.bytes_left o.
Proof.
  intros Hleft Hsize Hsizes Hrun.
  destruct (run_budget_closed_form cs o o' Hleft Hsize Hsizes Hrun) as [Hl Hs].
  pose proof (total_payload_nonneg cs Hsizes).
  unfold machine.is_size_t in Hleft. repeat split; try assumption; lia.
Qed.

Lemma payloads_are_size_t_hundred :
  op_context.payloads_are_size_t examples.hundred_byte_calls.
Proof.
  repeat constructor; vm_compute; discriminate.
Defined.

Lemma payloads_are_size_t_two_groups :
  op_context.payloads_are_size_t examples.two_group_calls.
Proof.
  repeat constructor; vm_compute; discriminate.
Defined.

Lemma run_budget_totals_witness :
  (exists o' : op_context.t,
     op_context.run (op_context.make examples.env0 examples.long_poll_request)
       examples.two_group_calls = Some o'
     /\ op_context.bytes_left o' = 128 * 2 ^ 20 - 10
     /\ op_context.response_size o' = 10)
  /\ (exists o' : op_context.t,
        op_context.run
          (op_context.make examples.env0 examples.ten_byte_request)
          examples.hundred_byte_calls = Some o'
        /\ op_context.bytes_left o' = 0
        /\ op_context.response_size o' = 100).
Proof.
  split.
  - eexists. split; [vm_compute; reflexivity|].
    destruct (run_budget_totals examples.two_group_calls
                (op_context.make examples.env0 examples.long_poll_request)
                _
                ltac:(vm_compute; split; [discriminate|reflexivity])
                ltac:(vm_compute; split; [discriminate|reflexivity])
                payloads_are_size_t_two_groups
                ltac:(vm_compute; reflexivity)) as (Hleft & Hsize & _).
    split; [rewrite Hleft|rewrite Hsize]; reflexivity.
  - eexists. split; [vm_compute; reflexivity|].
    destruct (run_budget_totals examples.hundred_byte_calls
                (op_context.make examples.env0 examples.ten_byte_request)
                _
                ltac:(vm_compute; split; [discriminate|reflexivity])
                ltac:(vm_compute; split; [discriminate|reflexivity])
                payloads_are_size_t_hundred
                ltac:(vm_compute; reflexivity)) as (Hleft & Hsize & _).
    split; [rewrite Hleft|rewrite Hsize]; reflexivity.
Defined.

(** X3.  Whatever the client sends, the constructor seeds [bytes_left] with
    between zero and 128 MiB; for a non-negative [int32_t] [max_bytes] the
    seed is the smaller of [max_bytes] and 128 MiB, and no sequence of calls
    with [size_t] payloads ever raises [bytes_left] above the seed. *)
Theorem constructor_budget_bounds
    (e : op_context.env) (req : fetch_request.t) :
  0 <= op_context.bytes_left (op_context.make e req) <= 128 * 2 ^ 20
  /\ (0 <= fetch_request.max_bytes req < 2 ^ 31 ->
      op_context.bytes_left (op_context.make e req)
      = Z.min (128 * 2 ^ 20) (fetch_request.max_bytes req))
  /\ (forall cs o',
        op_context.payloads_are_size_t cs ->
        op_context.run (op_context.make e req) cs = Some o' ->
        0 <= op_context.bytes_left o'
          <= op_context.bytes_left (op_context.make e req)).
Proof.
  pose proof (to_size_t_range (fetch_request.max_bytes req)) as Hrange.
  unfold machine.is_size_t in Hrange.
  assert (Hseed : op_context.bytes_left (op_context.make e req)
                  = Z.min (128 * 2 ^ 20)
                      (machine.to_size_t (fetch_request.max_bytes req)))
    by reflexivity.
  split; [rewrite Hseed; lia|]. split.
  - intros Hmax. rewrite Hseed, to_size_t_small; [reflexivity|].
    unfold machine.is_size_t. lia.
  - intros cs o' Hsizes Hrun.
    destruct (run_budget_closed_form cs (op_context.make e req) o')
      as [Hl _]; auto.
    + rewrite Hseed. unfold machine.is_size_t. lia.
    + cbn. unfold machine.is_size_t. lia.
    + pose proof (total_payload_nonneg cs Hsizes). rewrite Hl, Hseed. lia.
Qed.

Lemma constructor_budget_bounds_witness :
  op_context.bytes_left
    (op_context.make examples.env0 examples.ten_byte_request)
  = Z.min (128 * 2 ^ 20) 10.
Proof.
  apply (proj1 (proj2 (constructor_budget_bounds examples.env0
                         examples.ten_byte_request))).
  vm_compute. split; [discriminate|reflexivity].
Defined.

(** X4.  The constructor sets a deadline exactly when [max_wait_time] is
    positive, and then it lies strictly after the construction time, at
    [now + max_wait_time].  A context without a deadline, however many
    results were folded into it, is told to stop. *)
Theorem deadline_absent_stops
    (e : op_context.env) (req : fetch_request.t) :
  (op_context.deadline (op_context.make e req) = None <->
   fetch_request.max_wait_time req <= 0)
  /\ (forall d,
        op_context.deadline (op_context.make e req) = Some d ->
        d = op_context.now e + fetch_request.max_wait_time req
        /\ op_context.now e < d)
  /\ (forall cs o',
        op_context.run (op_context.make e req) cs = Some o' ->
        op_context.deadline o' = None ->
        op_context.should_stop_fetch o' = true).
Proof.
  assert (Hnone : op_context.deadline (op_context.make e req) = None <->
                  fetch_request.max_wait_time req <= 0).
  { cbn [op_context.make op_context.deadline].
    unfold fetch_request.debounce_delay.
    destruct (Z.leb_spec (fetch_request.max_wait_time req) 0);
      split; intros; try reflexivity; try discriminate; lia. }
  split; [exact Hnone|]. split.
  - cbn [op_context.make op_context.deadline].
    unfold fetch_request.debounce_delay.
    destruct (Z.leb_spec (fetch_request.max_wait_time req) 0);
      intros d [= <-]. split; [reflexivity|lia].
  - intros cs o' Hrun Hdeadline.
    destruct (run_frame cs _ _ Hrun) as (Hreq & Hdl & _).
    apply should_stop_fetch_cases. left.
    rewrite Hreq. cbn [op_context.make op_context.request].
    apply Hnone. congruence.
Qed.

Lemma deadline_absent_stops_witness :
  op_context.deadline
    (op_context.make examples.env0 examples.long_poll_request) = Some 1500
  /\ 1000 < 1500.
Proof.
  split; [reflexivity|].
  refine (proj2 (proj1 (proj2 (deadline_absent_stops examples.env0
                                 examples.long_poll_request)) 1500 _)).
  reflexivity.
Defined.

(** X5.  Once [should_stop_fetch] holds it keeps holding while results are
    folded, as long as the response size stays below [2^31]. *)
Theorem should_stop_fetch_stable
    (cs : list op_context.call) (o o' : op_context.t) :
  0 <= op_context.response_size o ->
  machine.is_size_t (op_context.bytes_left o) ->
  op_context.payloads_are_size_t cs ->
  op_context.response_size o + op_context.total_payload cs < 2 ^ 31 ->
  op_context.run o cs = Some o' ->
  op_context.should_stop_fetch o = true ->
  op_context.should_stop_fetch o' = true.
Proof.
  intros Hsize Hleft Hsizes Hsmall Hrun Hstop.
  pose proof (total_payload_nonneg cs Hsizes) as Hnonneg.
  destruct (run_frame cs _ _ Hrun) as (Hreq & _ & Herr & _).
  destruct (run_budget_closed_form cs o o') as [_ Hs]; auto.
  { unfold machine.is_size_t. lia. }
  rewrite to_size_t_small in Hs by (unfold machine.is_size_t; lia).
  apply should_stop_fetch_cases in Hstop.
  apply should_stop_fetch_cases. rewrite Hreq, Herr, Hs.
  rewrite to_int32_small in Hstop by (unfold machine.is_int32; lia).
  rewrite to_int32_small by (unfold machine.is_int32; lia).
  destruct Hstop as [H|[H|[H|H]]]; auto. right; left. lia.
Qed.

Lemma should_stop_fetch_stable_witness :
  op_context.should_stop_fetch
    (op_context.make examples.env0 examples.zero_min_bytes_request) = true
  /\ exists o' : op_context.t,
       op_context.run
         (op_context.make examples.env0 examples.zero_min_bytes_request)
         examples.two_group_calls = Some o'
       /\ op_context.response_size o' = 10
       /\ op_context.should_stop_fetch o' = true.
Proof.
  split; [reflexivity|].
  eexists. split; [vm_compute; reflexivity|]. split; [reflexivity|].
  refine (should_stop_fetch_stable examples.two_group_calls
            (op_context.make examples.env0 examples.zero_min_bytes_request)
            _ _ _ payloads_are_size_t_two_groups _ _ _).
  - vm_compute. discriminate.
  - vm_compute. split; [discriminate|reflexivity].
  - vm_compute. reflexivity.
  - vm_compute. reflexivity.
  - vm_compute. reflexivity.
Defined.

(** ** Groups of the response *)

Lemma run_app (cs1 cs2 : list op_context.call) :
  forall o : op_context.t,
    op_context.run o (cs1 ++ cs2)
    = match op_context.run o cs1 with
      | Some o1 => op_context.run o1 cs2
      | None => None
      end.
Proof.
  induction cs1 as [|[tp|r] cs1 IH]; intros o; cbn [app op_context.run].
  - reflexivity.
  - apply IH.
  - destruct (op_context.add_partition_response o r); [apply IH|reflexivity].
Qed.

Lemma run_adds (rs : list fetch_response.partition_response) :
  forall (o : op_context.t) (front : list fetch_response.partition)
         (g : fetch_response.partition),
    fetch_response.partitions (op_context.response o) = front ++ [g] ->
    exists o',
      op_context.run o (map op_context.call_add_partition_response rs) = Some o'
      /\ fetch_response.partitions (op_context.response o')
         = front ++ [{| fetch_response.name := fetch_response.name g;
                        fetch_response.responses
                          := fetch_response.responses g ++ rs |}].
Proof.
  induction rs as [|r rs IH]; intros o front g Hparts.
  - exists o. split; [reflexivity|]. rewrite Hparts, app_nil_r.
    destruct g; reflexivity.
  - cbn [map op_context.run].
    destruct (add_partition_response_groups o r front g Hparts)
      as (o1 & -> & Hres).
    destruct (IH o1 front (fetch_response.push_back g r) Hres)
      as (o' & Hrun & Hfinal).
    exists o'. split; [exact Hrun|]. rewrite Hfinal.
    cbn [fetch_response.push_back fetch_response.name fetch_response.responses].
    rewrite <- app_assoc. reflexivity.
Qed.

(** X6.  Starting each topic and then adding its results builds the response
    group by group: the calls are always defined, the groups already in the
    response are kept as they are, and one group per started topic is
    appended in call order, named after the topic and holding exactly the
    results added for it, in the order they were added. *)
Theorem response_groups_mirror_calls
    (gs : list (fetch_request.topic * list fetch_response.partition_response))
    (o : op_context.t) :
  exists o',
    op_context.run o (op_context.calls_of_groups gs) = Some o'
    /\ fetch_response.partitions (op_context.response o')
       = fetch_response.partitions (op_context.response o)
         ++ map op_context.response_group gs.
Proof.
  revert o. induction gs as [|[tp rs] gs IH]; intros o.
  - exists o. split; [reflexivity|]. cbn. now rewrite app_nil_r.
  - unfold op_context.calls_of_groups. cbn [flat_map].
    fold (op_context.calls_of_groups gs).
    unfold op_context.calls_of_group at 1. cbn [fst snd app op_context.run].
    rewrite run_app.
    destruct (run_adds rs (op_context.start_response_topic o tp)
                (fetch_response.partitions (op_context.response o))
                (fetch_response.make_partition (fetch_request.name tp))
                eq_refl) as (o1 & -> & Hone).
    destruct (IH o1) as (o' & Hrun & Hall).
    exists o'. split; [exact Hrun|]. rewrite Hall, Hone.
    cbn [map]. rewrite <- app_assoc. reflexivity.
Qed.

(** * Further properties of the partition iterator *)

Lemma op_eq_true_iff (a b : fetch_request.const_iterator.t) :
  fetch_request.const_iterator.op_eq a b = true <->
  fetch_request.const_iterator.topic (fetch_request.const_iterator.state_ a)
  = fetch_request.const_iterator.topic (fetch_request.const_iterator.state_ b)
  /\ (fetch_request.const_iterator.topic (fetch_request.const_iterator.state_ a)
      <> fetch_request.const_iterator.t_end_ a ->
      fetch_request.const_iterator.partition (fetch_request.const_iterator.state_ a)
      = fetch_request.const_iterator.partition
          (fetch_request.const_iterator.state_ b)).
Proof.
  unfold fetch_request.const_iterator.op_eq.
  destruct (Nat.eqb_spec
              (fetch_request.const_iterator.topic
                 (fetch_request.const_iterator.state_ a))
              (fetch_request.const_iterator.topic
                 (fetch_request.const_iterator.state_ b))) as [Htopic|Htopic].
  - destruct (Nat.eqb_spec
                (fetch_request.const_iterator.topic
                   (fetch_request.const_iterator.state_ a))
                (fetch_request.const_iterator.t_end_ a)) as [Hend|Hend].
    + intuition.
    + rewrite partition_iterator_eqb_eq. intuition.
  - intuition discriminate.
Qed.

(** X7.  [operator==] is reflexive, and on cursors with the same end it is
    symmetric and transitive. *)
Theorem op_eq_equivalence (a b c : fetch_request.const_iterator.t) :
  fetch_request.const_iterator.op_eq a a = true
  /\ (fetch_request.const_iterator.t_end_ a
      = fetch_request.const_iterator.t_end_ b ->
      fetch_request.const_iterator.op_eq a b
      = fetch_request.const_iterator.op_eq b a)
  /\ (fetch_request.const_iterator.t_end_ a
      = fetch_request.const_iterator.t_end_ b ->
      fetch_request.const_iterator.op_eq a b = true ->
      fetch_request.const_iterator.op_eq b c = true ->
      fetch_request.const_iterator.op_eq a c = true).
Proof.
  split; [apply op_eq_true_iff; auto|]. split.
  - intros Hend.
    destruct (fetch_request.const_iterator.op_eq a b) eqn:Hab;
      destruct (fetch_request.const_iterator.op_eq b a) eqn:Hba;
      try reflexivity; exfalso.
    + apply op_eq_true_iff in Hab as [Ht Hp].
      assert (fetch_request.const_iterator.op_eq b a = true); [|congruence].
      apply op_eq_true_iff. split; [congruence|].
      intros Hne. symmetry. apply Hp. congruence.
    + apply op_eq_true_iff in Hba as [Ht Hp].
      assert (fetch_request.const_iterator.op_eq a b = true); [|congruence].
      apply op_eq_true_iff. split; [congruence|].
      intros Hne. symmetry. apply Hp. congruence.
  - intros Hend Hab Hbc.
    apply op_eq_true_iff in Hab as [Ht1 Hp1].
    apply op_eq_true_iff in Hbc as [Ht2 Hp2].
    apply op_eq_true_iff. split; [congruence|].
    intros Hne. rewrite Hp1 by exact Hne. apply Hp2. congruence.
Qed.

Lemma op_eq_equivalence_witness :
  exists first e,
    fetch_request.cbegin examples.abc_request = Some first
    /\ fetch_request.cend examples.abc_request = Some e
    /\ fetch_request.const_iterator.op_eq first e
       = fetch_request.const_iterator.op_eq e first.
Proof.
  eexists. eexists.
  split; [vm_compute; reflexivity|]. split; [vm_compute; reflexivity|].
  refine (proj1 (proj2 (op_eq_equivalence _ _ _)) _).
  - exact (fetch_request.const_iterator.cend_cursor []).
  - reflexivity.
Defined.

Lemma normalize_round (ts : list fetch_request.topic)
    (it : fetch_request.const_iterator.t) :
  fetch_request.const_iterator.normalize ts it =
  match fetch_request.const_iterator.normalize_step ts it with
  | fetch_request.const_iterator.loop_exit it' => Some it'
  | fetch_request.const_iterator.loop_again it' =>
      fetch_request.const_iterator.normalize ts it'
  | fetch_request.const_iterator.loop_undefined => None
  end.
Proof. exact (normalize_unfold ts it). Qed.

Section cursors.

Variable topics : list fetch_request.topic.

Import fetch_request.const_iterator.

Local Abbreviation remaining := (fetch_request.remaining topics).
Local Abbreviation normalized := (fetch_request.normalized topics).
Local Abbreviation reachable := (fetch_request.reachable topics).
Local Abbreviation flag_consistent := (fetch_request.flag_consistent topics).
Local Abbreviation cend_cursor := (cend_cursor topics).

Lemma normalize_step_again (it it' : t) :
  normalize_step topics it = loop_again it' ->
  it' = {| state_ := {| new_topic := true; topic := S (topic (state_ it));
                        partition := partitions_cbegin (S (topic (state_ it))) |};
           t_end_ := t_end_ it |}
  /\ (topic (state_ it) < length topics)%nat.
Proof.
  unfold normalize_step.
  destruct (nth_error topics (topic (state_ it))) as [tp|] eqn:Hnth;
    [|discriminate].
  assert (topic (state_ it) < length topics)%nat
    by (apply nth_error_Some; congruence).
  destruct (partition_iterator_eqb _ _); [|discriminate].
  cbv zeta. destruct (negb _); [|discriminate].
  intros [= <-]. auto.
Qed.

Lemma normalize_step_exit (it it' : t) :
  normalize_step topics it = loop_exit it' ->
  it' = it
  \/ (it' = {| state_ := {| new_topic := true; topic := S (topic (state_ it));
                            partition := partition (state_ it) |};
               t_end_ := t_end_ it |}
      /\ S (topic (state_ it)) = t_end_ it).
Proof.
  unfold normalize_step.
  destruct (nth_error topics (topic (state_ it))) as [tp|]; [|discriminate].
  destruct (partition_iterator_eqb _ _); [|intros [= <-]; now left].
  cbv zeta.
  destruct (Nat.eqb_spec (S (topic (state_ it))) (t_end_ it)); cbn [negb];
    [|discriminate].
  intros [= <-]. right. auto.
Qed.

(** What every round of [normalize] keeps, its result has. *)
Lemma normalize_preserves (P : t -> Prop) :
  (forall it it', P it -> normalize_step topics it = loop_again it' -> P it') ->
  (forall it it', P it -> normalize_step topics it = loop_exit it' -> P it') ->
  forall (n : nat) (it it' : t),
    (length topics - topic (state_ it) <= n)%nat ->
    P it -> normalize topics it = Some it' -> P it'.
Proof.
  intros Hagain Hexit. induction n as [|n IH]; intros it it' Hn HP;
    rewrite normalize_round;
    destruct (normalize_step topics it) as [it1|it1|] eqn:Hstep;
    try discriminate.
  - intros [= <-]. eapply Hexit; eauto.
  - apply normalize_step_again in Hstep as [_ Hlt]. lia.
  - intros [= <-]. eapply Hexit; eauto.
  - intros Hnorm. apply (IH it1 it'); [|eapply Hagain; eauto|exact Hnorm].
    apply normalize_step_again in Hstep as [-> Hlt]. cbn. lia.
Qed.

Lemma normalize_flag_consistent (it it' : t) :
  flag_consistent it -> normalize topics it = Some it' -> flag_consistent it'.
Proof.
  apply (normalize_preserves flag_consistent)
    with (n := (length topics - topic (state_ it))%nat); [| |lia].
  - intros a a' (Hend & _ & _) Hstep.
    apply normalize_step_again in Hstep as [-> _].
    split; [exact Hend|]. split; [reflexivity|].
    cbn. intros x [= <-] _. cbn. intuition.
  - intros a a' (Hend & Hlast & Hin) Hstep.
    apply normalize_step_exit in Hstep as [->|[-> Hs]].
    + split; [exact Hend|]. split; assumption.
    + split; [exact Hend|]. split; [reflexivity|].
      cbn. intros x _ Hlt. lia.
Qed.

Lemma reachable_flag_consistent (it : t) :
  reachable it -> flag_consistent it.
Proof.
  induction 1 as [it Hbegin|it Hcend|it it' Hreach IH Hincr].
  - unfold cbegin, construct in Hbegin.
    destruct (Nat.eqb_spec 0 (length topics)) as [Hnone|Hsome];
      cbn [negb] in Hbegin.
    + injection Hbegin as <-. split; [reflexivity|].
      split; [reflexivity|]. cbn. discriminate.
    + apply normalize_flag_consistent in Hbegin; [exact Hbegin|].
      split; [reflexivity|]. split; [reflexivity|].
      cbn. intros x [= <-] _. cbn. intuition.
  - rewrite cend_defined in Hcend. injection Hcend as <-.
    split; [reflexivity|]. split; [reflexivity|]. cbn. discriminate.
  - destruct (Nat.eq_dec (topic (state_ it)) (length topics)) as [Hlast|Hmore].
    { rewrite op_incr_at_end in Hincr by exact Hlast. discriminate. }
    unfold op_incr in Hincr.
    destruct (partition_incr topics (partition (state_ it))) as [p|] eqn:Hp;
      [|discriminate].
    apply normalize_flag_consistent in Hincr; [exact Hincr|].
    destruct IH as (Hend & _ & _).
    split; [exact Hend|]. split; [cbn; contradiction|].
    cbn. intros x -> _. unfold partition_incr in Hp.
    destruct (partition (state_ it)) as [y|]; [|discriminate].
    destruct (nth_error topics (vec y)); [|discriminate].
    destruct (Nat.ltb _ _); [|discriminate].
    injection Hp as <-. cbn. split; discriminate.
Qed.

Lemma remaining_length_same_position (a b : t) :
  topic (state_ a) = topic (state_ b) ->
  partition (state_ a) = partition (state_ b) ->
  length (remaining a) = length (remaining b).
Proof.
  intros Ht Hp. unfold fetch_request.remaining. rewrite Ht, Hp.
  destruct (nth_error topics (topic (state_ b))); [|reflexivity].
  destruct (partition (state_ b)); [|reflexivity].
  rewrite !length_app. f_equal.
  unfold fetch_request.remaining_in_topic.
  destruct (skipn _ _); reflexivity.
Qed.

Lemma spec_traversal_nil (ts : list fetch_request.topic) :
  fetch_request.spec_traversal ts = [] <->
  Forall fetch_request.no_partitions ts.
Proof.
  unfold fetch_request.spec_traversal, fetch_request.no_partitions.
  induction ts as [|tp ts IH]; cbn [flat_map].
  - split; [constructor|reflexivity].
  - split.
    + intros H. apply app_eq_nil in H as [Hhead Htail].
      constructor; [|apply IH; exact Htail].
      unfold fetch_request.flagged_partitions in Hhead.
      destruct (fetch_request.partitions tp); [reflexivity|discriminate].
    + intros H. inversion H as [|? ? Hhead Htail]; subst.
      unfold fetch_request.flagged_partitions. rewrite Hhead.
      apply IH. exact Htail.
Qed.

(** X8.  A cursor of an iteration that is not [cend()] can be read: it
    names a topic of the request and a partition of that very topic. *)
Theorem cursor_dereferences (it : t) :
  reachable it ->
  op_eq it cend_cursor = false ->
  exists tp p,
    deref topics (state_ it) = Some (new_topic (state_ it), tp, p)
    /\ nth_error topics (topic (state_ it)) = Some tp
    /\ In tp topics
    /\ In p (fetch_request.partitions tp).
Proof.
  intros Hreach Hneq. apply reachable_normalized in Hreach.
  rewrite op_eq_cend in Hneq by apply Hreach.
  apply Nat.eqb_neq in Hneq.
  destruct Hreach as [Hend [Hlast|(tp & x & Hnth & Hpart & Hvec & Hoff)]];
    [contradiction|].
  destruct (nth_error (fetch_request.partitions tp) (off x)) as [p|] eqn:Hp.
  2:{ apply nth_error_None in Hp. lia. }
  exists tp, p. split; [|split; [exact Hnth|split]].
  - unfold deref. rewrite Hnth, Hpart, Hvec, Hnth, Hp. reflexivity.
  - eapply nth_error_In. exact Hnth.
  - eapply nth_error_In. exact Hp.
Qed.

(** X9.  On the cursors of an iteration, [++] is defined exactly away from
    [cend()].  It then leads to a cursor of the iteration that differs from
    the one before and has one element less ahead of it; the postfix form
    hands back the cursor as it was. *)
Theorem increment_progress (it : t) :
  reachable it ->
  (op_eq it cend_cursor = true ->
   op_incr topics it = None /\ op_post_incr topics it = None)
  /\ (op_eq it cend_cursor = false ->
      exists it',
        op_incr topics it = Some it'
        /\ op_post_incr topics it = Some (it, it')
        /\ reachable it'
        /\ op_eq it it' = false
        /\ S (length (remaining it')) = length (remaining it)).
Proof.
  intros Hreach. pose proof (reachable_normalized topics it Hreach) as Hvalid.
  rewrite op_eq_cend by apply Hvalid. split.
  - intros Hlast. apply Nat.eqb_eq in Hlast.
    unfold op_post_incr. rewrite op_incr_at_end by exact Hlast. auto.
  - intros Hmore. apply Nat.eqb_neq in Hmore.
    destruct (incr_normalized topics it Hvalid Hmore)
      as (v & it' & _ & Hincr & Hvalid' & Hrem).
    exists it'. split; [exact Hincr|].
    split; [unfold op_post_incr; rewrite Hincr; reflexivity|].
    split; [eapply fetch_request.reachable_incr; eauto|].
    split; [|rewrite Hrem; reflexivity].
    destruct (op_eq it it') eqn:Heq; [exfalso|reflexivity].
    apply op_eq_true_iff in Heq as [Ht Hp].
    assert (Hsame : length (remaining it) = length (remaining it')).
    { apply remaining_length_same_position; [exact Ht|].
      apply Hp. destruct Hvalid as [-> _]. exact Hmore. }
    rewrite Hrem in Hsame. cbn in Hsame. lia.
Qed.

(** X10.  [cbegin()] is defined for every request, and it equals [cend()]
    exactly when no topic of the request has a partition. *)
Theorem cbegin_is_cend_iff :
  exists first,
    cbegin topics = Some first
    /\ (op_eq first cend_cursor = true <->
        Forall fetch_request.no_partitions topics).
Proof.
  destruct (cbegin_defined topics) as (first & Hbegin & Hvalid & Hrem).
  exists first. split; [exact Hbegin|].
  rewrite op_eq_cend by apply Hvalid.
  rewrite Nat.eqb_eq, (remaining_nil_iff topics first Hvalid), Hrem.
  apply spec_traversal_nil.
Qed.

(** X11.  On every cursor of an iteration that is not [cend()],
    [new_topic] is set exactly when the cursor is at the first partition of
    its topic; on a cursor equal to [cend()] it is set. *)
Theorem new_topic_marks_first_partition (it : t) :
  reachable it ->
  (op_eq it cend_cursor = true -> new_topic (state_ it) = true)
  /\ (op_eq it cend_cursor = false ->
      exists x,
        partition (state_ it) = Some x
        /\ vec x = topic (state_ it)
        /\ (new_topic (state_ it) = true <-> off x = 0%nat)).
Proof.
  intros Hreach.
  pose proof (reachable_normalized topics it Hreach) as Hvalid.
  destruct (reachable_flag_consistent it Hreach) as (_ & Hlast & Hin).
  rewrite op_eq_cend by apply Hvalid. split.
  - intros Heq. apply Nat.eqb_eq in Heq. auto.
  - intros Hneq. apply Nat.eqb_neq in Hneq.
    destruct Hvalid as [Hend [Hl|(tp & x & Hnth & Hpart & Hvec & Hoff)]];
      [contradiction|].
    exists x. split; [exact Hpart|]. split; [exact Hvec|].
    apply Hin; [exact Hpart|]. apply nth_error_Some. congruence.
Qed.

End cursors.

Lemma cursor_dereferences_witness :
  exists first tp p,
    fetch_request.cbegin examples.abc_request = Some first
    /\ fetch_request.const_iterator.deref
         (fetch_request.topics examples.abc_request)
         (fetch_request.const_iterator.state_ first)
       = Some (fetch_request.const_iterator.new_topic
                 (fetch_request.const_iterator.state_ first), tp, p)
    /\ In p (fetch_request.partitions tp).
Proof.
  destruct (cbegin_defined (fetch_request.topics examples.abc_request))
    as (first & Hbegin & _).
  destruct (cursor_dereferences (fetch_request.topics examples.abc_request)
              first) as (tp & p & Hderef & _ & _ & Hin).
  - apply fetch_request.reachable_cbegin. exact Hbegin.
  - vm_compute in Hbegin. injection Hbegin as <-. reflexivity.
  - exists first, tp, p. auto.
Defined.

Lemma increment_progress_witness :
  exists first second,
    fetch_request.cbegin examples.abc_request = Some first
    /\ fetch_request.const_iterator.op_incr
         (fetch_request.topics examples.abc_request) first = Some second
    /\ fetch_request.const_iterator.op_eq first second = false.
Proof.
  destruct (cbegin_defined (fetch_request.topics examples.abc_request))
    as (first & Hbegin & _).
  destruct (proj2 (increment_progress
                     (fetch_request.topics examples.abc_request) first
                     (fetch_request.reachable_cbegin _ _ Hbegin)))
    as (second & Hincr & _ & _ & Hneq & _).
  - vm_compute in Hbegin. injection Hbegin as <-. reflexivity.
  - exists first, second. auto.
Defined.

Lemma new_topic_marks_first_partition_witness :
  exists first,
    fetch_request.cbegin examples.abc_request = Some first
    /\ fetch_request.const_iterator.new_topic
         (fetch_request.const_iterator.state_ first) = true.
Proof.
  destruct (cbegin_defined (fetch_request.topics examples.abc_request))
    as (first & Hbegin & _).
  exists first. split; [exact Hbegin|].
  destruct (proj2 (new_topic_marks_first_partition
                     (fetch_request.topics examples.abc_request) first
                     (fetch_request.reachable_cbegin _ _ Hbegin)))
    as (x & Hpart & _ & Hflag).
  - vm_compute in Hbegin. injection Hbegin as <-. reflexivity.
  - apply Hflag. vm_compute in Hbegin. injection Hbegin as <-.
    cbn in Hpart. injection Hpart as <-. reflexivity.
Defined.
